(** * slate-edit-table: the table rules of [validateNode.js] and [makeSchema.js]

    A shallow embedding of the rule-based validator/normalizer for table
    subtrees of a Slate document, and the properties of its rules.

    - [src/lib/schema/validateNode.js] is embedded in [Module ValidateNode];
    - [src/lib/makeSchema.js] is embedded in [Module MakeSchema];
    - the part of the host (Slate) that the repairs talk to, the key
      generator and the by-key edit operations, is in [Module Host]. *)

From stdpp Require Import base option list strings gmap.
From Stdlib Require Import ZArith Lia.

Open Scope string_scope.
Open Scope list_scope.

(** ** Data model *)

(** Node keys. Slate draws them from a global counter and prints them as
    decimal strings; only their identity matters here. *)
Definition Key := nat.

(** A node's [data] is an Immutable [Map]; the rules read one entry of it,
    ['align'], a sequence of alignment tags. *)
Abbreviation Data := (gmap string (list string)).

(** Nodes as the rules see them: a block has a [type], a [key], [data] and
    ordered children [nodes]; a text leaf has a [key] and no [type]. *)
#[warnings="-register-all"]
Inductive Node : Type :=
| Block (key : Key) (type : string) (data : Data) (nodes : list Node)
| Text (key : Key) (text : string).

Definition nodeKey (n : Node) : Key :=
  match n with Block k _ _ _ => k | Text k _ => k end.

(** [node.type]: [undefined] on a text leaf. *)
Definition nodeType (n : Node) : option string :=
  match n with Block _ ty _ _ => Some ty | Text _ _ => None end.

(** [node.nodes]. The rules read it only behind a successful comparison of
    [node.type] with a configured type, that is on blocks. *)
Definition nodeNodes (n : Node) : list Node :=
  match n with Block _ _ _ ns => ns | Text _ _ => [] end.

Definition nodeData (n : Node) : Data :=
  match n with Block _ _ d _ => d | Text _ _ => ∅ end.

(** The plugin options the rules use. *)
Record Options : Type := mkOptions {
  typeTable : string;
  typeRow : string;
  typeCell : string
}.

(** ** Effects: the key generator and exceptions *)

Inductive Error : Type :=
| TypeError (msg : string).

(** State of Slate's global key generator: the next key it hands out. *)
Definition KeyGen := nat.

Inductive Result (A : Type) : Type :=
| Ok (a : A) (g : KeyGen)
| Throw (e : Error).
Arguments Ok {A} a g.
Arguments Throw {A} e.

Definition Eff (A : Type) : Type := KeyGen → Result A.

Definition ret {A} (a : A) : Eff A := λ g, Ok a g.

Definition bind {A B} (m : Eff A) (k : A → Eff B) : Eff B :=
  λ g, match m g with
       | Ok a g' => k a g'
       | Throw e => Throw e
       end.

Definition throw {A} (e : Error) : Eff A := λ _, Throw e.

Notation "'let*' x ':=' m 'in' k" := (bind m (λ x, k))
  (at level 10, x name, m at level 100, k at level 200).

(** [xs.forEach(x => f(acc, x))] with the accumulator passed along, which
    is also [xs.reduce((acc, x) => f(acc, x), acc)]. *)
Fixpoint forEach {A S} (f : S → A → Eff S) (xs : list A) (acc : S) : Eff S :=
  match xs with
  | [] => ret acc
  | x :: xs' => let* acc' := f acc x in forEach f xs' acc'
  end.

(** Size of Immutable's [Range(0, end)] (step 1; the step is negated when
    [end < 0], so the range then counts down and has [-end] elements). *)
Definition rangeSize (e : Z) : nat := Z.to_nat (Z.abs e).

(** [Range(0, end).forEach(() => f(acc))]. *)
Fixpoint times {S} (n : nat) (f : S → Eff S) (acc : S) : Eff S :=
  match n with
  | O => ret acc
  | S n' => let* acc' := f acc in times n' f acc'
  end.

(** ** The change log *)

(** The operations the rules call on a Slate [Change]; [normalize] is the
    option of the same name ([true] when the call does not pass it). *)
Inductive Op : Type :=
| RemoveNodeByKey (key : Key) (normalize : bool)
| InsertNodeByKey (parent : Key) (index : nat) (node : Node) (normalize : bool)
| SetNodeByKey (key : Key) (data : Data) (normalize : bool).

(** A change, as far as the rules are concerned: the operations applied to
    it so far, oldest first. *)
Definition Change := list Op.

Definition removeNodeByKey (change : Change) (key : Key) (normalize : bool)
  : Change := change ++ [RemoveNodeByKey key normalize].

Definition insertNodeByKey (change : Change) (parent : Key) (index : nat)
  (node : Node) (normalize : bool) : Change :=
  change ++ [InsertNodeByKey parent index node normalize].

Definition setNodeByKey (change : Change) (key : Key) (data : Data)
  (normalize : bool) : Change := change ++ [SetNodeByKey key data normalize].

Definition Normalizer := Change → Eff Change.

(** ** Host *)

Module Host.

(** [Text.create] / [Block.create]: the node gets the generator's next key. *)
Definition generateKey : Eff Key := λ g, Ok g (S g).

Definition createText (text : string) : Eff Node :=
  let* k := generateKey in ret (Text k text).

Definition createBlock (type : string) (nodes : list Node) : Eff Node :=
  let* k := generateKey in ret (Block k type ∅ nodes).

(** All keys of a subtree, the root's first. *)
Fixpoint keys (n : Node) : list Key :=
  match n with
  | Block k _ _ ns => k :: (ns ≫= keys)
  | Text k _ => [k]
  end.

(** Slate keeps the keys of a document pairwise distinct. *)
Definition wellKeyed (n : Node) : Prop := NoDup (keys n).

(** The generator only hands out keys that the subtree does not use. *)
Definition freshFor (g : KeyGen) (n : Node) : Prop :=
  Forall (λ k, k < g) (keys n).

(** First node of [ns], in document order, on which [f] succeeds, replaced
    by the result. *)
Definition updateFirst (f : Node → option Node)
  : list Node → option (list Node) :=
  fix go ns :=
    match ns with
    | [] => None
    | n :: ns' =>
        match f n with
        | Some n' => Some (n' :: ns')
        | None => cons n <$> go ns'
        end
    end.

(** Children [ns] with the first descendant of key [k] taken out;
    [below] searches under a child. *)
Definition removeFirst (below : Node → option Node) (k : Key)
  : list Node → option (list Node) :=
  fix go ns :=
    match ns with
    | [] => None
    | n :: ns' =>
        if decide (nodeKey n = k) then Some ns'
        else match below n with
             | Some n' => Some (n' :: ns')
             | None => cons n <$> go ns'
             end
    end.

(** Modelled from the spec: the host's "remove child" edit, addressed by
    key as the rules call it. The first descendant of [n] with key [k] is
    taken out of its parent; [None] when [n] has no such descendant. *)
Fixpoint removeNode (k : Key) (n : Node) : option Node :=
  match n with
  | Block k' ty d ns => Block k' ty d <$> removeFirst (removeNode k) k ns
  | Text _ _ => None
  end.

(** Modelled from the spec: the host's "insert child at position" edit.
    [child] becomes the child at [index] of the first node with key
    [parent]; [None] when there is no such block. *)
Fixpoint insertNode (parent : Key) (index : nat) (child : Node) (n : Node)
  : option Node :=
  match n with
  | Block k ty d ns =>
      if decide (k = parent)
      then Some (Block k ty d (take index ns ++ child :: drop index ns))
      else Block k ty d <$> updateFirst (insertNode parent index child) ns
  | Text _ _ => None
  end.

(** Modelled from the spec: the host's "set node data" edit. *)
Fixpoint setData (key : Key) (data : Data) (n : Node) : option Node :=
  match n with
  | Block k ty d ns =>
      if decide (k = key) then Some (Block k ty data ns)
      else Block k ty d <$> updateFirst (setData key data) ns
  | Text _ _ => None
  end.

Definition applyOp (doc : Node) (op : Op) : option Node :=
  match op with
  | RemoveNodeByKey k _ => removeNode k doc
  | InsertNodeByKey p i child _ => insertNode p i child doc
  | SetNodeByKey k data _ => setData k data doc
  end.

(** The operations of a change, applied in the order they were emitted. *)
Fixpoint applyChange (change : Change) (doc : Node) : option Node :=
  match change with
  | [] => Some doc
  | op :: ops =>
      match applyOp doc op with
      | Some doc' => applyChange ops doc'
      | None => None
      end
  end.

End Host.

(** ** Shared predicates and diagnoses *)

Definition isRow (opts : Options) (node : Node) : Prop :=
  nodeType node = Some (typeRow opts).

Definition isCell (opts : Options) (node : Node) : Prop :=
  nodeType node = Some (typeCell opts).

#[global] Instance isRow_dec opts node : Decision (isRow opts node) :=
  decide (nodeType node = Some (typeRow opts)).

#[global] Instance isCell_dec opts node : Decision (isCell opts node) :=
  decide (nodeType node = Some (typeCell opts)).

(** [row.nodes.count(isCell)], a JavaScript number. *)
Definition countCells (opts : Options) (row : Node) : Z :=
  Z.of_nat (length (filter (isCell opts) (nodeNodes row))).

(** [list.filter(Boolean)] on a list of objects and [null]s. *)
Definition filterBoolean {A} (xs : list (option A)) : list A := omap id xs.

(** Diagnosis of the rows-only rule: [{ invalids, add }]. *)
Record RowsDiagnosis : Type := mkRowsDiagnosis {
  rows_invalids : list Node;
  rows_add : list Node
}.

(** One entry of the column-count diagnosis: [{ row, invalids, add }]. *)
Record RowDiagnosis : Type := mkRowDiagnosis {
  row : Node;
  invalids : list Node;
  add : Z
}.

(** Diagnosis of the alignment rule: [{ align, columns }]. *)
Record AlignDiagnosis : Type := mkAlignDiagnosis {
  align : list string;
  columns : nat
}.

(** The old format of Slate rules. The diagnosis is whatever [validate]
    returns and [normalize] takes back ([any] in the source). *)
Record Rule : Type := mkRule {
  Diagnosis : Type;
  match_ : Node → bool;
  validate : Node → Eff (option Diagnosis);
  normalize : Change → Node → Diagnosis → Eff Change
}.

(** ** [src/lib/schema/validateNode.js] *)

Module ValidateNode.
Section Rules.

Variable opts : Options.

(** [createAlign(columns, align)] of [src/lib/createAlign.js]. *)
Variable createAlign : nat → list string → list string.

Definition makeEmptyCell : Eff Node :=
  let* text := Host.createText "" in
  Host.createBlock (typeCell opts) [text].

Definition makeEmptyRow : Eff Node :=
  let* cell := makeEmptyCell in
  Host.createBlock (typeRow opts) [cell].

Definition isTable (node : Node) : bool :=
  bool_decide (nodeType node = Some (typeTable opts)).

(** *** Rule that ensures tables only contain rows and at least one *)

Definition tablesContainOnlyRows_validate (table : Node)
  : Eff (option RowsDiagnosis) :=
  let invalids := filter (λ n, ¬ isRow opts n) (nodeNodes table) in
  let* add :=
    if decide (length invalids = length (nodeNodes table))
    then (let* r := makeEmptyRow in ret [r])
    else ret [] in
  if decide (invalids = [] ∧ length add = 0) then ret None
  else ret (Some (mkRowsDiagnosis invalids add)).

Definition tablesContainOnlyRows_normalize (change : Change) (node : Node)
  (d : RowsDiagnosis) : Eff Change :=
  let* change :=
    forEach (λ change child,
               ret (removeNodeByKey change (nodeKey child) false))
            (rows_invalids d) change in
  let* change :=
    forEach (λ change child,
               ret (insertNodeByKey change (nodeKey node) 0 child true))
            (rows_add d) change in
  ret change.

Definition tablesContainOnlyRows : Rule := {|
  match_ := isTable;
  validate := tablesContainOnlyRows_validate;
  normalize := tablesContainOnlyRows_normalize
|}.

(** *** Rule that ensures rows contain only cells, and as many cells as
    there are columns in the table *)

(** [rows.reduce((count, row) => Math.max(count, countCells(row)), 1)] *)
Definition columnsOf (rows : list Node) : Z :=
  foldl (λ count row, Z.max count (countCells opts row)) 1%Z rows.

(** The callback of [rows.map] in [validate]. *)
Definition diagnoseRow (columns : Z) (row : Node) : option RowDiagnosis :=
  let cells := countCells opts row in
  let invalids := filter (λ n, ¬ isCell opts n) (nodeNodes row) in
  if decide (invalids = [] ∧ cells = columns) then None
  else Some (mkRowDiagnosis row invalids (columns - cells)).

Definition rowsContainRequiredColumns_validate (table : Node)
  : Eff (option (list RowDiagnosis)) :=
  let rows := filter (isRow opts) (nodeNodes table) in
  let columns := columnsOf rows in
  let invalidRows := filterBoolean (diagnoseRow columns <$> rows) in
  ret (if decide (0 < length invalidRows) then Some invalidRows else None).

Definition rowsContainRequiredColumns_normalize (change : Change)
  (node : Node) (rows : list RowDiagnosis) : Eff Change :=
  forEach (λ change entry,
     let* change :=
       forEach (λ change child,
                  ret (removeNodeByKey change (nodeKey child) false))
               (invalids entry) change in
     times (rangeSize (add entry))
           (λ change,
              let* cell := makeEmptyCell in
              ret (insertNodeByKey change (nodeKey (row entry)) 0 cell false))
           change)
    rows change.

Definition rowsContainRequiredColumns : Rule := {|
  match_ := isTable;
  validate := rowsContainRequiredColumns_validate;
  normalize := rowsContainRequiredColumns_normalize
|}.

(** *** Rule that ensures the table node has all align data *)

Definition tableContainAlignData_validate (table : Node)
  : Eff (option AlignDiagnosis) :=
  let align := default [] (nodeData table !! "align") in
  match head (nodeNodes table) with
  | None => throw (TypeError "Cannot read property 'type' of undefined")
  | Some row =>
      if decide (nodeType row ≠ Some (typeRow opts)) then ret None
      else
        let columns := length (nodeNodes row) in
        ret (if decide (length align = columns) then None
             else Some (mkAlignDiagnosis align columns))
  end.

Definition tableContainAlignData_normalize (change : Change) (node : Node)
  (d : AlignDiagnosis) : Eff Change :=
  ret (setNodeByKey change (nodeKey node)
         (<["align" := createAlign (columns d) (align d)]> (nodeData node))
         false).

Definition tableContainAlignData : Rule := {|
  match_ := isTable;
  validate := tableContainAlignData_validate;
  normalize := tableContainAlignData_normalize
|}.

(** *** The validator *)

(** Converts an old rule definition to an individual validator. *)
Definition toValidateNode (rule : Rule) (node : Node)
  : Eff (option Normalizer) :=
  if negb (match_ rule node) then ret None
  else
    let* validationResult := validate rule node in
    match validationResult with
    | None => ret None
    | Some d => ret (Some (λ change, normalize rule change node d))
    end.

(** [validators.find(validator => { changer = validator(node);
    return Boolean(changer); })], with the variable [changer] that the
    callback assigns passed along. *)
Fixpoint findChanger (validators : list (Node → Eff (option Normalizer)))
  (node : Node) (changer : option Normalizer) : Eff (option Normalizer) :=
  match validators with
  | [] => ret changer
  | validator :: rest =>
      let* changer := validator node in
      if bool_decide (is_Some changer) then ret changer
      else findChanger rest node changer
  end.

Definition validateTableNode (rules : list Rule) (node : Node)
  : Eff (option Normalizer) :=
  findChanger (toValidateNode <$> rules) node None.

Definition rules : list Rule :=
  [ (* tablesContainOnlyRows *)
    rowsContainRequiredColumns;
    tableContainAlignData ].

Definition validateNode : Node → Eff (option Normalizer) :=
  validateTableNode rules.

End Rules.
End ValidateNode.

(** ** [src/lib/makeSchema.js] *)

Module MakeSchema.
Section Rules.

Variable opts : Options.

Definition isTable (node : Node) : bool :=
  bool_decide (nodeType node = Some (typeTable opts)).

(** [Slate.Raw.deserializeNode] of a cell with one empty text. *)
Definition makeEmptyCell : Eff Node :=
  let* text := Host.createText "" in
  Host.createBlock (typeCell opts) [text].

(** [Slate.Raw.deserializeNode] of a row with one such cell. *)
Definition makeEmptyRow : Eff Node :=
  let* cell := makeEmptyCell in
  Host.createBlock (typeRow opts) [cell].

Definition tablesContainOnlyRows_validate (table : Node)
  : Eff (option RowsDiagnosis) :=
  let invalids := filter (λ n, ¬ isRow opts n) (nodeNodes table) in
  let* add :=
    if decide (length invalids = length (nodeNodes table))
    then (let* r := makeEmptyRow in ret [r])
    else ret [] in
  if decide (invalids = [] ∧ length add = 0) then ret None
  else ret (Some (mkRowsDiagnosis invalids add)).

Definition tablesContainOnlyRows_normalize (transform : Change) (node : Node)
  (d : RowsDiagnosis) : Eff Change :=
  let* transform :=
    forEach (λ t child, ret (removeNodeByKey t (nodeKey child) false))
            (rows_invalids d) transform in
  let* transform :=
    forEach (λ t child, ret (insertNodeByKey t (nodeKey node) 0 child true))
            (rows_add d) transform in
  ret transform.

Definition tablesContainOnlyRows : Rule := {|
  match_ := isTable;
  validate := tablesContainOnlyRows_validate;
  normalize := tablesContainOnlyRows_normalize
|}.

Definition columnsOf (rows : list Node) : Z :=
  foldl (λ count row, Z.max count (countCells opts row)) 1%Z rows.

Definition diagnoseRow (columns : Z) (row : Node) : option RowDiagnosis :=
  let cells := countCells opts row in
  let invalids := filter (λ n, ¬ isCell opts n) (nodeNodes row) in
  if decide (invalids = [] ∧ cells = columns) then None
  else Some (mkRowDiagnosis row invalids (columns - cells)).

Definition rowsContainRequiredColumns_validate (table : Node)
  : Eff (option (list RowDiagnosis)) :=
  let rows := filter (isRow opts) (nodeNodes table) in
  let columns := columnsOf rows in
  let valid := forallb (λ row, bool_decide (columns = countCells opts row)) rows in
  if valid then ret None
  else ret (Some (filterBoolean (diagnoseRow columns <$> rows))).

Definition rowsContainRequiredColumns_normalize (transform : Change)
  (node : Node) (rows : list RowDiagnosis) : Eff Change :=
  forEach (λ tr entry,
     let* tr :=
       forEach (λ t child, ret (removeNodeByKey t (nodeKey child) false))
               (invalids entry) tr in
     let* tr :=
       times (rangeSize (add entry))
             (λ t,
                let* cell := makeEmptyCell in
                ret (insertNodeByKey t (nodeKey (row entry)) 0 cell false))
             tr in
     ret tr)
    rows transform.

Definition rowsContainRequiredColumns : Rule := {|
  match_ := isTable;
  validate := rowsContainRequiredColumns_validate;
  normalize := rowsContainRequiredColumns_normalize
|}.

Definition makeSchema : list Rule :=
  [ tablesContainOnlyRows; rowsContainRequiredColumns ].

End Rules.
End MakeSchema.

(** ** Running a repair *)

(** What the host does with a validator: it runs it on the node and, when
    it returns a normalizer, hands that a change and applies the
    operations it emitted. A node without defect is left as it is. *)
Definition repair (validator : Node → Eff (option Normalizer)) (doc : Node)
  (g : KeyGen) : option Node :=
  match validator doc g with
  | Ok None _ => Some doc
  | Ok (Some normalizer) g' =>
      match normalizer [] g' with
      | Ok change _ => Host.applyChange change doc
      | Throw _ => None
      end
  | Throw _ => None
  end.

(** The same, with the state the repair leaves the key generator in. *)
Definition repairGen (validator : Node → Eff (option Normalizer))
  (doc : Node) (g : KeyGen) : option (Node * KeyGen) :=
  match validator doc g with
  | Ok None g' => Some (doc, g')
  | Ok (Some normalizer) g' =>
      match normalizer [] g' with
      | Ok change g'' => (λ doc', (doc', g'')) <$> Host.applyChange change doc
      | Throw _ => None
      end
  | Throw _ => None
  end.

(** ** Vocabulary of the properties *)

(** A run of the rules [rs] on [node] in which none reports a defect:
    each rule either does not match or validates to [null]. The generator
    goes from [g] to [g']. *)
Inductive noDefect (node : Node) : list Rule → KeyGen → KeyGen → Prop :=
| noDefect_nil g : noDefect node [] g g
| noDefect_unmatched r rs g g' :
    match_ r node = false →
    noDefect node rs g g' →
    noDefect node (r :: rs) g g'
| noDefect_valid r rs g g1 g' :
    match_ r node = true →
    validate r node g = Ok None g1 →
    noDefect node rs g1 g' →
    noDefect node (r :: rs) g g'.

(** [max(c_1..c_n)] of cell counts (which are never negative). *)
Definition maxCells (counts : list Z) : Z := foldr Z.max 0%Z counts.

(** A table that satisfies the invariants: every child is a row, every
    row holds only cells, [columns] of them, and [align] has [columns]
    entries, for [columns = max(1, max cell-count over the rows)]. *)
Definition validTable (opts : Options) (table : Node) : Prop :=
  let columns :=
    Z.max 1 (maxCells (countCells opts
                         <$> filter (isRow opts) (nodeNodes table))) in
  Forall (λ child, isRow opts child
                   ∧ Forall (isCell opts) (nodeNodes child)
                   ∧ countCells opts child = columns)
         (nodeNodes table)
  ∧ Z.of_nat (length (default [] (nodeData table !! "align"))) = columns.

(** The cell that [makeEmptyCell] builds when the generator is at [g],
    and the row that [makeEmptyRow] builds. *)
Definition emptyCellAt (opts : Options) (g : KeyGen) : Node :=
  Block (S g) (typeCell opts) ∅ [Text g ""].

Definition emptyRowAt (opts : Options) (g : KeyGen) : Node :=
  Block (S (S g)) (typeRow opts) ∅ [emptyCellAt opts g].

(** The removals of a repair: one per invalid child, in order. *)
Definition removalOps (invalids : list Node) : list Op :=
  (λ child, RemoveNodeByKey (nodeKey child) false) <$> invalids.

(** The insertions of [n] empty cells at the head of [parent], the
    generator being at [g] before the first. *)
Fixpoint paddingOps (opts : Options) (parent : Key) (n : nat) (g : KeyGen)
  : list Op :=
  match n with
  | O => []
  | S n' =>
      InsertNodeByKey parent 0 (emptyCellAt opts g) false
      :: paddingOps opts parent n' (S (S g))
  end.

(** The operations of the column-count repair for the diagnosis [d]. *)
Fixpoint columnOps (opts : Options) (d : list RowDiagnosis) (g : KeyGen)
  : list Op :=
  match d with
  | [] => []
  | entry :: d' =>
      removalOps (invalids entry)
      ++ paddingOps opts (nodeKey (row entry)) (rangeSize (add entry)) g
      ++ columnOps opts d' (g + 2 * rangeSize (add entry))
  end.

(** The generator after the column-count repair for [d]. *)
Fixpoint columnGen (d : list RowDiagnosis) (g : KeyGen) : KeyGen :=
  match d with
  | [] => g
  | entry :: d' => columnGen d' (g + 2 * rangeSize (add entry))
  end.

(** The operations of the rows-only repair for the diagnosis [d]. *)
Definition rowsOps (table : Node) (d : RowsDiagnosis) : list Op :=
  removalOps (rows_invalids d)
  ++ ((λ child, InsertNodeByKey (nodeKey table) 0 child true)
        <$> rows_add d).

(** [child] is the key of a child of the node of key [parent], which is
    the table or one of its children: the parents the repairs of a table
    address. *)
Definition childKeyOf (table : Node) (parent child : Key) : Prop :=
  ∃ p, p ∈ table :: nodeNodes table
       ∧ nodeKey p = parent
       ∧ child ∈ nodeKey <$> nodeNodes p.

(** No child of a parent is removed after an insertion into that
    parent. *)
Definition removalsFirst (table : Node) (ops : list Op) : Prop :=
  ∀ before after parent index node flag key flag',
    ops = before ++ InsertNodeByKey parent index node flag :: after →
    RemoveNodeByKey key flag' ∈ after →
    ¬ childKeyOf table parent key.

(** The children that [n] insertions of empty cells at position 0 put at
    the head of a row: the last inserted comes first. *)
Fixpoint paddingCells (opts : Options) (n : nat) (g : KeyGen) : list Node :=
  match n with
  | O => []
  | S n' => paddingCells opts n' (S (S g)) ++ [emptyCellAt opts g]
  end.

(** A row after the repair of its entry: the cells it had, behind the
    empty cells that pad it to [columns]. *)
Definition repairedRow (opts : Options) (columns : Z) (g : KeyGen)
  (r : Node) : Node :=
  match r with
  | Block k ty d ns =>
      Block k ty d
        (paddingCells opts (rangeSize (columns - countCells opts r)) g
         ++ filter (isCell opts) ns)
  | Text _ _ => r
  end.

(** The children of a table after the column-count repair. *)
Fixpoint repairedNodes (opts : Options) (columns : Z) (ns : list Node)
  (g : KeyGen) : list Node :=
  match ns with
  | [] => []
  | n :: ns' =>
      if decide (isRow opts n
                 ∧ is_Some (ValidateNode.diagnoseRow opts columns n))
      then repairedRow opts columns g n
           :: repairedNodes opts columns ns'
                (g + 2 * rangeSize (columns - countCells opts n))
      else n :: repairedNodes opts columns ns' g
  end.

(** Row [r'] is row [r] with cells put before the cells it had, which
    are all still there, in their order; the new cells are empty cells
    made with the generator at [g] or later. *)
Definition paddedFrom (opts : Options) (g : KeyGen) (r r' : Node) : Prop :=
  nodeKey r' = nodeKey r
  ∧ nodeType r' = nodeType r
  ∧ ∃ pad,
      filter (isCell opts) (nodeNodes r')
      = pad ++ filter (isCell opts) (nodeNodes r)
      ∧ Forall (λ c, ∃ g', c = emptyCellAt opts g' ∧ (g ≤ g')%nat) pad.

(** An operation that removes, without normalizing, a child that is no
    cell from a row of [table], or that inserts, without normalizing, at
    the head of a row of [table] an empty cell made with the generator at
    [g] or later. *)
Definition rowOperation (opts : Options) (table : Node) (g : KeyGen)
  (op : Op) : Prop :=
  match op with
  | RemoveNodeByKey key flag =>
      flag = false
      ∧ ∃ r c, r ∈ nodeNodes table ∧ isRow opts r
               ∧ c ∈ nodeNodes r ∧ ¬ isCell opts c ∧ nodeKey c = key
  | InsertNodeByKey parent index node flag =>
      flag = false ∧ index = 0
      ∧ (∃ r, r ∈ nodeNodes table ∧ isRow opts r ∧ nodeKey r = parent)
      ∧ ∃ g', node = emptyCellAt opts g' ∧ (g ≤ g')%nat
  | SetNodeByKey _ _ _ => False
  end.

(** Every rule of the two files, the one that validateNode.js leaves out
    of its list included. *)
Definition allRules (opts : Options)
  (createAlign : nat → list string → list string) : list Rule :=
  ValidateNode.tablesContainOnlyRows opts
  :: ValidateNode.rules opts createAlign ++ MakeSchema.makeSchema opts.

(** Induction over nodes with the hypothesis available for every child. *)
Definition Node_rect' (P : Node → Type)
  (Q : list Node → Type)
  (HText : ∀ k s, P (Text k s))
  (HBlock : ∀ k ty d ns, Q ns → P (Block k ty d ns))
  (Hnil : Q [])
  (Hcons : ∀ n ns, P n → Q ns → Q (n :: ns))
  : ∀ n, P n :=
  fix go n :=
    match n with
    | Text k s => HText k s
    | Block k ty d ns =>
        HBlock k ty d ns
          ((fix gos ns : Q ns :=
              match ns with
              | [] => Hnil
              | n :: ns' => Hcons n ns' (go n) (gos ns')
              end) ns)
    end.

(** ** Sample documents *)

Module Samples.

Definition opts : Options := mkOptions "table" "table_row" "table_cell".

(** Modelled from the spec: [createAlign(columns, align)] of
    [src/lib/createAlign.js], which extends or truncates [align] to
    exactly [columns] entries, keeping the entries it has and filling new
    columns with a default tag. *)
Definition createAlign (columns : nat) (align : list string) : list string :=
  take columns (align ++ replicate columns "none").

Definition cell (k : Key) : Node :=
  Block k "table_cell" ∅ [Text (S k) "x"].

Definition paragraph (k : Key) : Node :=
  Block k "paragraph" ∅ [Text (S k) "p"].

(** A table without children. *)
Definition emptyTable : Node := Block 0 "table" ∅ [].

(** The same with an [align] entry of one column. *)
Definition emptyAlignedTable : Node :=
  Block 0 "table" {["align" := ["left"]]} [].

(** A table of two paragraphs and no row. *)
Definition rowlessTable : Node :=
  Block 0 "table" ∅ [paragraph 1; paragraph 3].

(** One row of one cell followed by a paragraph. *)
Definition strayTable : Node :=
  Block 0 "table" {["align" := ["left"]]}
    [Block 1 "table_row" ∅ [cell 2; paragraph 4]].

(** Rows of 2, 3 and 1 cells; the second also holds a paragraph. *)
Definition rowOfTwo : Node := Block 1 "table_row" ∅ [cell 2; cell 4].

Definition rowOfThree : Node :=
  Block 6 "table_row" ∅ [cell 7; paragraph 9; cell 11; cell 13].

Definition rowOfOne : Node := Block 15 "table_row" ∅ [cell 16].

Definition raggedTable : Node :=
  Block 0 "table" {["align" := ["left"]]} [rowOfTwo; rowOfThree; rowOfOne].

(** Its column-count diagnosis. *)
Definition raggedDiagnosis : list RowDiagnosis :=
  [ mkRowDiagnosis rowOfTwo [] 1;
    mkRowDiagnosis rowOfThree [paragraph 9] 0;
    mkRowDiagnosis rowOfOne [] 2 ].

(** A row of a cell and a paragraph before a row of two cells. *)
Definition paddedTable : Node :=
  Block 0 "table" ∅
    [ Block 1 "table_row" ∅ [cell 2; paragraph 4];
      Block 6 "table_row" ∅ [cell 7; cell 9] ].

(** A paragraph before the only row. *)
Definition mixedTable : Node :=
  Block 0 "table" ∅ [paragraph 1; Block 3 "table_row" ∅ [cell 4]].

(** Two rows of two cells, aligned. *)
Definition alignedTable : Node :=
  Block 0 "table" {["align" := ["left"; "right"]]}
    [ Block 1 "table_row" ∅ [cell 2; cell 4];
      Block 6 "table_row" ∅ [cell 7; cell 9] ].

(** Two rows of two cells and no [align] entry. *)
Definition unalignedTable : Node :=
  Block 0 "table" ∅
    [ Block 1 "table_row" ∅ [cell 2; cell 4];
      Block 6 "table_row" ∅ [cell 7; cell 9] ].

End Samples.

(** * Properties *)

Section Pipeline.

Lemma toValidateNode_unmatched (r : Rule) node g :
  match_ r node = false → ValidateNode.toValidateNode r node g = Ok None g.
Proof. intros H. unfold ValidateNode.toValidateNode. by rewrite H. Qed.

Lemma toValidateNode_valid (r : Rule) node g g' :
  match_ r node = true →
  validate r node g = Ok None g' →
  ValidateNode.toValidateNode r node g = Ok None g'.
Proof.
  intros Hm Hv. unfold ValidateNode.toValidateNode, bind. rewrite Hm. simpl.
  by rewrite Hv.
Qed.

Lemma toValidateNode_defect (r : Rule) node d g g' :
  match_ r node = true →
  validate r node g = Ok (Some d) g' →
  ValidateNode.toValidateNode r node g
  = Ok (Some (λ change, normalize r change node d)) g'.
Proof.
  intros Hm Hv. unfold ValidateNode.toValidateNode, bind. rewrite Hm. simpl.
  by rewrite Hv.
Qed.

Lemma toValidateNode_throws (r : Rule) node e g :
  match_ r node = true →
  validate r node g = Throw e →
  ValidateNode.toValidateNode r node g = Throw e.
Proof.
  intros Hm Hv. unfold ValidateNode.toValidateNode, bind. rewrite Hm. simpl.
  by rewrite Hv.
Qed.

Lemma findChanger_skip validator rest node g g' :
  validator node g = Ok None g' →
  ValidateNode.findChanger (validator :: rest) node None g
  = ValidateNode.findChanger rest node None g'.
Proof. intros H. simpl. unfold bind. by rewrite H. Qed.

Lemma findChanger_noDefect_app node before vs g g1 :
  noDefect node before g g1 →
  ValidateNode.findChanger ((ValidateNode.toValidateNode <$> before) ++ vs)
    node None g
  = ValidateNode.findChanger vs node None g1.
Proof.
  induction 1 as [g|r rs g g' Hm _ IH|r rs g g1 g' Hm Hv _ IH]; [done| |].
  - rewrite fmap_cons, <- app_comm_cons.
    rewrite (findChanger_skip _ _ _ g g); [done|].
    by apply toValidateNode_unmatched.
  - rewrite fmap_cons, <- app_comm_cons.
    rewrite (findChanger_skip _ _ _ g g1); [done|].
    by apply toValidateNode_valid.
Qed.

(** C6. The validator tries the rules in order. When the rules [before]
    report no defect and [rule] matches and diagnoses [d], the result is
    the closure that normalizes with [rule] and [d], in the generator state
    that [rule]'s validation left, whatever the rules [after] are: they are
    not run. When no rule reports a defect the result is [undefined]. *)
Theorem validateTableNode_first_match
  (before after : list Rule) (rule : Rule) node (d : Diagnosis rule) g g1 g2 :
  noDefect node before g g1 →
  match_ rule node = true →
  validate rule node g1 = Ok (Some d) g2 →
  ValidateNode.validateTableNode (before ++ rule :: after) node g
  = Ok (Some (λ change, normalize rule change node d)) g2
  ∧ ValidateNode.validateTableNode before node g = Ok None g1.
Proof.
  intros Hbefore Hm Hv. unfold ValidateNode.validateTableNode. split.
  - rewrite fmap_app, fmap_cons.
    rewrite (findChanger_noDefect_app _ _ _ _ _ Hbefore). simpl.
    unfold bind. by rewrite (toValidateNode_defect _ _ _ _ _ Hm Hv).
  - pose proof (findChanger_noDefect_app node before [] g g1 Hbefore) as H.
    by rewrite app_nil_r in H.
Qed.

End Pipeline.

Lemma validateTableNode_first_match_witness :
  ValidateNode.validateNode Samples.opts Samples.createAlign
    Samples.unalignedTable 100
  = Ok (Some (λ change,
          ValidateNode.tableContainAlignData_normalize Samples.createAlign
            change Samples.unalignedTable (mkAlignDiagnosis [] 2)))
       100
  ∧ ValidateNode.validateTableNode
      [ValidateNode.rowsContainRequiredColumns Samples.opts]
      Samples.unalignedTable 100
    = Ok None 100.
Proof.
  apply (validateTableNode_first_match
           [ValidateNode.rowsContainRequiredColumns Samples.opts] []
           (ValidateNode.tableContainAlignData Samples.opts Samples.createAlign)
           Samples.unalignedTable (mkAlignDiagnosis [] 2)
           100 100 100).
  - eapply noDefect_valid; [reflexivity | vm_compute; reflexivity | constructor].
  - reflexivity.
  - vm_compute; reflexivity.
Defined.

Section Diagnoses.

Variable opts : Options.
Variable createAlign : nat → list string → list string.

Lemma columns_foldl_ge (f : Node → Z) rows (a : Z) :
  (a ≤ foldl (λ count row, Z.max count (f row)) a rows)%Z
  ∧ ∀ r, r ∈ rows → (f r ≤ foldl (λ count row, Z.max count (f row)) a rows)%Z.
Proof.
  revert a. induction rows as [|x rows IH]; intros a; simpl.
  - split; [lia|]. intros r Hr. by apply elem_of_nil in Hr.
  - destruct (IH (Z.max a (f x))) as [Ha Hrows]. split.
    + eapply Z.le_trans; [apply (Z.le_max_l a (f x))|exact Ha].
    + intros r Hr. apply elem_of_cons in Hr as [->|Hr]; [|by apply Hrows].
      eapply Z.le_trans; [apply (Z.le_max_r a (f x))|exact Ha].
Qed.

Lemma columns_foldl_max (f : Node → Z) rows (a : Z) :
  (0 ≤ a)%Z →
  foldl (λ count row, Z.max count (f row)) a rows
  = Z.max a (maxCells (f <$> rows)).
Proof.
  revert a. induction rows as [|x rows IH]; intros a Ha; simpl.
  - unfold maxCells. simpl. lia.
  - rewrite IH by lia. unfold maxCells. simpl. by rewrite Z.max_assoc.
Qed.

(** The number of columns is [max(1, max(c_1..c_n))]. *)
Lemma columnsOf_max rows :
  ValidateNode.columnsOf opts rows
  = Z.max 1 (maxCells (countCells opts <$> rows)).
Proof. unfold ValidateNode.columnsOf. by apply columns_foldl_max. Qed.

Lemma columnsOf_ge_1 rows : (1 ≤ ValidateNode.columnsOf opts rows)%Z.
Proof. apply (columns_foldl_ge (countCells opts) rows 1). Qed.

Lemma columnsOf_ge_cells rows r :
  r ∈ rows → (countCells opts r ≤ ValidateNode.columnsOf opts rows)%Z.
Proof. apply (columns_foldl_ge (countCells opts) rows 1). Qed.

Lemma countCells_nonneg r : (0 ≤ countCells opts r)%Z.
Proof. unfold countCells. lia. Qed.

(** Both files compute the same columns and the same row entries. *)
Lemma makeSchema_columnsOf rows :
  MakeSchema.columnsOf opts rows = ValidateNode.columnsOf opts rows.
Proof. reflexivity. Qed.

Lemma makeSchema_diagnoseRow columns r :
  MakeSchema.diagnoseRow opts columns r
  = ValidateNode.diagnoseRow opts columns r.
Proof. reflexivity. Qed.

Lemma elem_of_filterBoolean {A B} (f : A → option B) (xs : list A) (y : B) :
  y ∈ filterBoolean (f <$> xs) ↔ ∃ x, x ∈ xs ∧ f x = Some y.
Proof.
  unfold filterBoolean. rewrite list_elem_of_omap. split.
  - intros (o & Ho & Hy). simpl in Hy. subst o.
    apply list_elem_of_fmap in Ho as (x & Hx & Hin). eauto.
  - intros (x & Hin & Hx). exists (Some y). split; [|done].
    apply list_elem_of_fmap. eauto.
Qed.

Lemma diagnoseRow_Some columns r entry :
  ValidateNode.diagnoseRow opts columns r = Some entry →
  row entry = r
  ∧ invalids entry = filter (λ n, ¬ isCell opts n) (nodeNodes r)
  ∧ add entry = (columns - countCells opts r)%Z
  ∧ (invalids entry ≠ [] ∨ countCells opts r ≠ columns).
Proof.
  unfold ValidateNode.diagnoseRow. case_decide as Hok; [done|].
  intros [= <-]. simpl. repeat split; try done.
  destruct (decide (filter (λ n, ¬ isCell opts n) (nodeNodes r) = []));
    [right|left]; naive_solver.
Qed.

Lemma diagnoseRow_None columns r :
  ValidateNode.diagnoseRow opts columns r = None ↔
  filter (λ n, ¬ isCell opts n) (nodeNodes r) = []
  ∧ countCells opts r = columns.
Proof.
  unfold ValidateNode.diagnoseRow.
  destruct (decide (_ ∧ _)) as [Hok|Hok]; [by split|].
  split; [done|]. intros H. contradiction.
Qed.

(** What [validate] of validateNode.js returns, as a value. *)
Lemma validateNode_columns_validate table g :
  ValidateNode.rowsContainRequiredColumns_validate opts table g
  = Ok (let rows := filter (isRow opts) (nodeNodes table) in
        let d := filterBoolean
                   (ValidateNode.diagnoseRow opts
                      (ValidateNode.columnsOf opts rows) <$> rows) in
        if d is [] then None else Some d) g.
Proof.
  unfold ValidateNode.rowsContainRequiredColumns_validate, ret. simpl.
  by destruct (filterBoolean _) as [|e d].
Qed.

(** What [validate] of makeSchema.js returns, as a value. *)
Lemma makeSchema_columns_validate table g :
  MakeSchema.rowsContainRequiredColumns_validate opts table g
  = Ok (let rows := filter (isRow opts) (nodeNodes table) in
        let columns := ValidateNode.columnsOf opts rows in
        if decide (Forall (λ r, countCells opts r = columns) rows) then None
        else Some (filterBoolean
                     (ValidateNode.diagnoseRow opts columns <$> rows))) g.
Proof.
  unfold MakeSchema.rowsContainRequiredColumns_validate. simpl.
  set (rows := filter (isRow opts) (nodeNodes table)).
  set (columns := MakeSchema.columnsOf opts rows).
  change (ValidateNode.columnsOf opts rows) with columns.
  destruct (forallb _ rows) eqn:Hall.
  - rewrite decide_True; [done|].
    apply Forall_forall. intros r Hr.
    rewrite forallb_forall in Hall.
    apply list_elem_of_In in Hr. apply Hall in Hr.
    by apply bool_decide_eq_true in Hr.
  - rewrite decide_False; [done|]. intros HF.
    assert (forallb (λ row, bool_decide (columns = countCells opts row)) rows
            = true) as Hc; [|congruence].
    apply forallb_forall. intros r Hr. apply bool_decide_eq_true.
    rewrite Forall_forall in HF. symmetry. apply HF.
    by apply list_elem_of_In.
Qed.

(** C9. In every entry [{row, invalids, add}] of the column-count
    diagnosis, of validateNode.js and of makeSchema.js, [add] is
    [columns - cells] and is not negative. *)
Theorem add_nonnegative table g g' (d : list RowDiagnosis) entry :
  ValidateNode.rowsContainRequiredColumns_validate opts table g
    = Ok (Some d) g'
  ∨ MakeSchema.rowsContainRequiredColumns_validate opts table g
    = Ok (Some d) g' →
  entry ∈ d →
  add entry
  = (ValidateNode.columnsOf opts (filter (isRow opts) (nodeNodes table))
     - countCells opts (row entry))%Z
  ∧ (0 ≤ add entry)%Z.
Proof.
  intros Hd Hin.
  assert (entry ∈ filterBoolean
            (ValidateNode.diagnoseRow opts
               (ValidateNode.columnsOf opts
                  (filter (isRow opts) (nodeNodes table)))
             <$> filter (isRow opts) (nodeNodes table))) as He.
  { destruct Hd as [Hd|Hd].
    - rewrite validateNode_columns_validate in Hd. simpl in Hd.
      destruct (filterBoolean _); [done|]. by injection Hd as -> _.
    - rewrite makeSchema_columns_validate in Hd. simpl in Hd.
      case_decide; [done|]. by injection Hd as -> _. }
  apply elem_of_filterBoolean in He as (r & Hr & He).
  apply diagnoseRow_Some in He as (-> & _ & -> & _).
  split; [done|]. pose proof (columnsOf_ge_cells _ _ Hr). lia.
Qed.

Lemma align_validate_value table first rest g :
  nodeNodes table = first :: rest →
  ValidateNode.tableContainAlignData_validate opts table g
  = Ok (let align := default [] (nodeData table !! "align") in
        let columns := length (nodeNodes first) in
        if decide (nodeType first ≠ Some (typeRow opts)) then None
        else if decide (length align = columns) then None
             else Some (mkAlignDiagnosis align columns)) g.
Proof.
  intros Hnodes.
  unfold ValidateNode.tableContainAlignData_validate. rewrite Hnodes. simpl.
  by destruct (decide (nodeType first ≠ _)).
Qed.

(** C8. On a table whose first child is [first]: [validate] of the
    alignment rule returns [null] when [first] is not of the row type;
    otherwise, with [columns] the number of all children of [first] and
    [align] the data entry (or the empty sequence), it returns [null]
    exactly when [align] has [columns] entries, and [{align, columns}]
    when it has not. *)
Theorem align_validate_characterization table first rest g :
  nodeNodes table = first :: rest →
  let align := default [] (nodeData table !! "align") in
  let columns := length (nodeNodes first) in
  let result := ValidateNode.tableContainAlignData_validate opts table g in
  (nodeType first ≠ Some (typeRow opts) → result = Ok None g)
  ∧ (nodeType first = Some (typeRow opts) →
     (result = Ok None g ↔ length align = columns)
     ∧ (length align ≠ columns →
        result = Ok (Some (mkAlignDiagnosis align columns)) g)).
Proof.
  intros Hnodes align columns result. subst result.
  rewrite (align_validate_value table first rest g Hnodes). simpl.
  fold align. fold columns. split.
  - intros Hty. by rewrite decide_True.
  - intros Hty. rewrite decide_False by (intros H; by apply H).
    split; [split|].
    + destruct (decide (length align = columns)); [done|]. by intros [=].
    + intros ->. by rewrite decide_True.
    + intros Hne. by rewrite decide_False.
Qed.

(** The column-count rule finds nothing to repair in a table without
    rows. *)
Lemma columns_validate_rowless table g :
  Forall (λ n, ¬ isRow opts n) (nodeNodes table) →
  ValidateNode.rowsContainRequiredColumns_validate opts table g = Ok None g.
Proof.
  intros Hrows. rewrite validateNode_columns_validate. simpl.
  replace (filter (isRow opts) (nodeNodes table)) with (@nil Node); [done|].
  symmetry. induction Hrows as [|n ns Hn _ IH]; [done|].
  by rewrite filter_cons_False.
Qed.

(** C10. The validator of validateNode.js returns no repair for a table
    that has children but no row among them. *)
Theorem rowless_table_not_repaired table g :
  nodeType table = Some (typeTable opts) →
  nodeNodes table ≠ [] →
  Forall (λ n, ¬ isRow opts n) (nodeNodes table) →
  ValidateNode.validateNode opts createAlign table g = Ok None g.
Proof.
  intros Hty Hne Hrows.
  assert (noDefect table (ValidateNode.rules opts createAlign) g g) as H.
  { assert (ValidateNode.isTable opts table = true) as Hm
      by (by apply bool_decide_eq_true).
    eapply noDefect_valid; [exact Hm|by apply columns_validate_rowless|].
    eapply noDefect_valid; [exact Hm| |constructor].
    destruct (nodeNodes table) as [|first rest] eqn:Hnodes; [done|].
    change (ValidateNode.tableContainAlignData_validate opts table g
            = Ok None g).
    rewrite (align_validate_value table first rest g Hnodes). simpl.
    apply Forall_cons in Hrows as [Hfirst _]. by rewrite decide_True. }
  pose proof (findChanger_noDefect_app table _ [] g g H) as Hrun.
  by rewrite app_nil_r in Hrun.
Qed.

(** The rows-only rules and the column-count rules return a value on every
    node. *)
Lemma structural_validate_total table g :
  (∃ r g', ValidateNode.tablesContainOnlyRows_validate opts table g = Ok r g')
  ∧ (∃ r g', MakeSchema.tablesContainOnlyRows_validate opts table g = Ok r g')
  ∧ (∃ r, ValidateNode.rowsContainRequiredColumns_validate opts table g
          = Ok r g)
  ∧ (∃ r, MakeSchema.rowsContainRequiredColumns_validate opts table g
          = Ok r g).
Proof.
  split_and!.
  - unfold ValidateNode.tablesContainOnlyRows_validate.
    destruct (decide (length _ = _)); simpl; unfold bind; simpl;
      destruct (decide (_ ∧ _)); unfold ret; eauto.
  - unfold MakeSchema.tablesContainOnlyRows_validate.
    destruct (decide (length _ = _)); simpl; unfold bind; simpl;
      destruct (decide (_ ∧ _)); unfold ret; eauto.
  - rewrite validateNode_columns_validate. eauto.
  - rewrite makeSchema_columns_validate. eauto.
Qed.

(** C3. On a table without children the alignment rule's [validate]
    reads [type] of the [undefined] first child and throws; so does the
    validator of validateNode.js, whose column-count rule finds nothing
    to repair there. *)
Theorem align_validate_throws_on_empty_table key data g :
  let table := Block key (typeTable opts) data [] in
  match_ (ValidateNode.tableContainAlignData opts createAlign) table = true
  ∧ ValidateNode.tableContainAlignData_validate opts table g
    = Throw (TypeError "Cannot read property 'type' of undefined")
  ∧ ValidateNode.validateNode opts createAlign table g
    = Throw (TypeError "Cannot read property 'type' of undefined").
Proof.
  intros table. split_and!.
  - by apply bool_decide_eq_true.
  - reflexivity.
  - unfold ValidateNode.validateNode, ValidateNode.validateTableNode,
      ValidateNode.rules.
    rewrite !fmap_cons.
    rewrite (findChanger_skip _ _ _ g g).
    + change (bind (ValidateNode.toValidateNode
                      (ValidateNode.tableContainAlignData opts createAlign)
                      table)
                (λ changer, if bool_decide (is_Some changer) then ret changer
                            else ret changer) g = Throw
                (TypeError "Cannot read property 'type' of undefined")).
      unfold bind.
      rewrite (toValidateNode_throws
                 (ValidateNode.tableContainAlignData opts createAlign) table
                 (TypeError "Cannot read property 'type' of undefined") g);
        [done| |done].
      by apply bool_decide_eq_true.
    + apply toValidateNode_valid; [by apply bool_decide_eq_true|done].
Qed.

(** For validateNode.js the column-count diagnosis is [null] exactly when
    every row holds only cells, [columns] of them. *)
Lemma validateNode_columns_null_iff table g :
  let rows := filter (isRow opts) (nodeNodes table) in
  ValidateNode.rowsContainRequiredColumns_validate opts table g = Ok None g
  ↔ Forall (λ r, filter (λ n, ¬ isCell opts n) (nodeNodes r) = []
                 ∧ countCells opts r = ValidateNode.columnsOf opts rows) rows.
Proof.
  intros rows. rewrite validateNode_columns_validate. simpl. fold rows.
  set (columns := ValidateNode.columnsOf opts rows). clearbody columns.
  induction rows as [|r rs IH]; simpl; [by split|].
  unfold filterBoolean in *. simpl.
  destruct (ValidateNode.diagnoseRow opts columns r) as [e|] eqn:He; simpl.
  - split; [done|]. intros HF. apply Forall_cons in HF as [Hr _].
    apply diagnoseRow_None in Hr. congruence.
  - apply diagnoseRow_None in He. rewrite Forall_cons.
    split; [intros H; split; [done|by apply IH]|intros [_ H]; by apply IH].
Qed.

End Diagnoses.

Lemma add_nonnegative_witness :
  add (mkRowDiagnosis Samples.rowOfOne [] 2)
  = (ValidateNode.columnsOf Samples.opts
       (filter (isRow Samples.opts) (nodeNodes Samples.raggedTable))
     - countCells Samples.opts Samples.rowOfOne)%Z
  ∧ (0 ≤ add (mkRowDiagnosis Samples.rowOfOne [] 2))%Z.
Proof.
  apply (add_nonnegative Samples.opts Samples.raggedTable 100 100
           Samples.raggedDiagnosis).
  - left. vm_compute. reflexivity.
  - do 2 apply list_elem_of_further. apply list_elem_of_here.
Defined.

Lemma align_validate_characterization_witness :
  let result :=
    ValidateNode.tableContainAlignData_validate Samples.opts
      Samples.raggedTable 100 in
  (nodeType Samples.rowOfTwo ≠ Some "table_row" → result = Ok None 100)
  ∧ (nodeType Samples.rowOfTwo = Some "table_row" →
     (result = Ok None 100 ↔ length ["left"] = 2)
     ∧ (length ["left"] ≠ 2 →
        result = Ok (Some (mkAlignDiagnosis ["left"] 2)) 100)).
Proof.
  apply (align_validate_characterization Samples.opts Samples.raggedTable
           Samples.rowOfTwo [Samples.rowOfThree; Samples.rowOfOne] 100).
  reflexivity.
Defined.

Lemma rowless_table_not_repaired_witness :
  ValidateNode.validateNode Samples.opts Samples.createAlign
    Samples.rowlessTable 100 = Ok None 100.
Proof.
  apply (rowless_table_not_repaired Samples.opts Samples.createAlign
           Samples.rowlessTable 100).
  - reflexivity.
  - discriminate.
  - repeat constructor; vm_compute; discriminate.
Defined.

(** C2. makeSchema.js returns [null] as soon as every row has [columns]
    cells, before it looks at the other children of the rows: on a table
    whose only row holds a cell and a paragraph its diagnosis is [null],
    where validateNode.js reports the row and the paragraph to remove. *)
Theorem makeSchema_columns_validate_misses_invalids :
  let row := Block 1 "table_row" ∅ [Samples.cell 2; Samples.paragraph 4] in
  filter (isRow Samples.opts) (nodeNodes Samples.strayTable) = [row]
  ∧ filter (λ n, ¬ isCell Samples.opts n) (nodeNodes row)
    = [Samples.paragraph 4]
  ∧ countCells Samples.opts row = MakeSchema.columnsOf Samples.opts [row]
  ∧ match_ (MakeSchema.rowsContainRequiredColumns Samples.opts)
      Samples.strayTable = true
  ∧ MakeSchema.rowsContainRequiredColumns_validate Samples.opts
      Samples.strayTable 100
    = Ok None 100
  ∧ ValidateNode.rowsContainRequiredColumns_validate Samples.opts
      Samples.strayTable 100
    = Ok (Some [mkRowDiagnosis row [Samples.paragraph 4] 0]) 100.
Proof. vm_compute. repeat split. Qed.

Section Idempotence.

Variable opts : Options.
Variable createAlign : nat → list string → list string.

Lemma filter_all {A} (P : A → Prop) `{!∀ x, Decision (P x)} (l : list A) :
  Forall P l → filter P l = l.
Proof.
  induction 1 as [|x l Hx _ IH]; [done|]. by rewrite filter_cons_True, IH.
Qed.

Lemma filter_none {A} (P : A → Prop) `{!∀ x, Decision (P x)} (l : list A) :
  Forall (λ x, ¬ P x) l → filter P l = [].
Proof.
  induction 1 as [|x l Hx _ IH]; [done|]. by rewrite filter_cons_False.
Qed.

Lemma validTable_rows table :
  validTable opts table →
  filter (isRow opts) (nodeNodes table) = nodeNodes table
  ∧ filter (λ n, ¬ isRow opts n) (nodeNodes table) = []
  ∧ Forall (λ r, filter (λ n, ¬ isCell opts n) (nodeNodes r) = []
                 ∧ Z.of_nat (length (nodeNodes r))
                   = ValidateNode.columnsOf opts (nodeNodes table)
                 ∧ countCells opts r
                   = ValidateNode.columnsOf opts (nodeNodes table))
           (nodeNodes table).
Proof.
  intros [Hrows _].
  assert (filter (isRow opts) (nodeNodes table) = nodeNodes table) as Hall.
  { apply filter_all. eapply Forall_impl; [exact Hrows|]. by intros ? [? _]. }
  rewrite Hall in Hrows. split_and!; [done| |].
  - apply filter_none. eapply Forall_impl; [exact Hrows|].
    intros r [Hr _] Hn. by apply Hn.
  - rewrite columnsOf_max. eapply Forall_impl; [exact Hrows|].
    intros r (_ & Hcells & Hcount). simpl in Hcount. split_and!; [|  |done].
    + apply filter_none. eapply Forall_impl; [exact Hcells|].
      intros c Hc Hn. by apply Hn.
    + rewrite <- Hcount. unfold countCells. by rewrite filter_all.
Qed.

(** Where the table has at least one child the rules are idempotent: on
    a table that satisfies the invariants, [validate] of every rule of
    validateNode.js and of makeSchema.js returns [null], and the validator
    returns no repair. *)
Theorem valid_table_no_diagnosis table g :
  nodeType table = Some (typeTable opts) →
  nodeNodes table ≠ [] →
  validTable opts table →
  (∀ rule, rule ∈ ValidateNode.rules opts createAlign
                  ++ MakeSchema.makeSchema opts →
           validate rule table g = Ok None g)
  ∧ ValidateNode.validateNode opts createAlign table g = Ok None g.
Proof.
  intros Hty Hne Hvalid.
  destruct (validTable_rows table Hvalid) as (Hall & Hnone & Hrows).
  assert (ValidateNode.rowsContainRequiredColumns_validate opts table g
          = Ok None g) as Hcolumns.
  { apply validateNode_columns_null_iff. rewrite Hall.
    eapply Forall_impl; [exact Hrows|]. by intros r (? & _ & ?). }
  assert (ValidateNode.tableContainAlignData_validate opts table g
          = Ok None g) as Halign.
  { destruct (nodeNodes table) as [|first rest] eqn:Hnodes; [done|].
    rewrite (align_validate_value opts table first rest g Hnodes). simpl.
    destruct Hvalid as [Hchildren Hlen]. rewrite Hnodes in Hchildren.
    apply Forall_cons in Hchildren as [(Hfirst & _ & _) _].
    rewrite decide_False by (intros H; by apply H).
    apply Forall_cons in Hrows as [(_ & Hcols & _) _].
    rewrite decide_True; [done|].
    rewrite columnsOf_max in Hcols. cbv zeta in Hlen.
    rewrite Hnodes, Hall, <- Hcols in Hlen. by apply Nat2Z.inj in Hlen. }
  split.
  - intros rule Hrule. rewrite elem_of_app in Hrule.
    unfold ValidateNode.rules, MakeSchema.makeSchema in Hrule.
    rewrite !elem_of_cons, !elem_of_nil in Hrule.
    destruct Hrule as [[->|[->|[]]]|[->|[->|[]]]]; simpl; [done|done| |].
    + unfold MakeSchema.tablesContainOnlyRows_validate. rewrite Hnone. simpl.
      destruct (decide (0 = length (nodeNodes table))) as [Hlen|Hlen].
      * symmetry in Hlen. by apply nil_length_inv in Hlen.
      * reflexivity.
    + rewrite makeSchema_columns_validate. simpl. rewrite Hall.
      rewrite decide_True; [done|].
      eapply Forall_impl; [exact Hrows|]. by intros r (_ & _ & ?).
  - assert (ValidateNode.isTable opts table = true) as Hm
      by (by apply bool_decide_eq_true).
    pose proof (findChanger_noDefect_app table
                  (ValidateNode.rules opts createAlign) [] g g) as Hrun.
    rewrite app_nil_r in Hrun. apply Hrun.
    eapply noDefect_valid; [exact Hm|exact Hcolumns|].
    eapply noDefect_valid; [exact Hm|exact Halign|constructor].
Qed.

End Idempotence.

(** C5. The table without children that has one [align] entry, for its
    one column, satisfies the invariants, and the column-count rule has
    nothing to say about it; but [validate] of the alignment rule, the
    other configured rule, throws on it where it should return [null],
    and the validator throws with it. *)
Theorem valid_empty_table_throws :
  nodeType Samples.emptyAlignedTable = Some (typeTable Samples.opts)
  ∧ validTable Samples.opts Samples.emptyAlignedTable
  ∧ validate (ValidateNode.rowsContainRequiredColumns Samples.opts)
      Samples.emptyAlignedTable 100 = Ok None 100
  ∧ validate (ValidateNode.tableContainAlignData Samples.opts
                Samples.createAlign)
      Samples.emptyAlignedTable 100
    = Throw (TypeError "Cannot read property 'type' of undefined")
  ∧ ValidateNode.validateNode Samples.opts Samples.createAlign
      Samples.emptyAlignedTable 100
    = Throw (TypeError "Cannot read property 'type' of undefined").
Proof.
  split_and!; try reflexivity. split; [constructor|reflexivity].
Qed.

Lemma valid_table_no_diagnosis_witness :
  (∀ rule, rule ∈ ValidateNode.rules Samples.opts Samples.createAlign
                  ++ MakeSchema.makeSchema Samples.opts →
           validate rule Samples.alignedTable 100 = Ok None 100)
  ∧ ValidateNode.validateNode Samples.opts Samples.createAlign
      Samples.alignedTable 100 = Ok None 100.
Proof.
  apply (valid_table_no_diagnosis Samples.opts Samples.createAlign
           Samples.alignedTable 100).
  - reflexivity.
  - discriminate.
  - split; [|reflexivity].
    repeat constructor.
Defined.

Section Emission.

Variable opts : Options.

Lemma forEach_removals (invalids : list Node) (change : Change) g :
  forEach (λ change child,
             ret (removeNodeByKey change (nodeKey child) false))
          invalids change g
  = Ok (change ++ removalOps invalids) g.
Proof.
  revert change. induction invalids as [|c cs IH]; intros change; simpl.
  - unfold ret. by rewrite app_nil_r.
  - unfold bind, ret at 1. simpl. rewrite IH. unfold removeNodeByKey.
    by rewrite <- app_assoc.
Qed.

Lemma makeEmptyCell_at g :
  ValidateNode.makeEmptyCell opts g = Ok (emptyCellAt opts g) (S (S g)).
Proof. reflexivity. Qed.

Lemma makeEmptyRow_at g :
  ValidateNode.makeEmptyRow opts g = Ok (emptyRowAt opts g) (S (S (S g))).
Proof. reflexivity. Qed.

Lemma times_padding parent (n : nat) (change : Change) g :
  times n
    (λ change,
       let* cell := ValidateNode.makeEmptyCell opts in
       ret (insertNodeByKey change parent 0 cell false))
    change g
  = Ok (change ++ paddingOps opts parent n g) (g + 2 * n).
Proof.
  revert change g. induction n as [|n IH]; intros change g; simpl.
  - unfold ret. rewrite app_nil_r. f_equal. lia.
  - unfold bind at 1. unfold bind at 1. rewrite makeEmptyCell_at.
    unfold ret at 1. rewrite IH. unfold insertNodeByKey.
    rewrite <- app_assoc. simpl. f_equal. lia.
Qed.

(** What the column-count [normalize] of validateNode.js appends. *)
Lemma validateNode_columns_normalize change node (d : list RowDiagnosis) g :
  ValidateNode.rowsContainRequiredColumns_normalize opts change node d g
  = Ok (change ++ columnOps opts d g) (columnGen d g).
Proof.
  unfold ValidateNode.rowsContainRequiredColumns_normalize.
  revert change g. induction d as [|e d IH]; intros change g; simpl.
  - unfold ret. by rewrite app_nil_r.
  - unfold bind at 1. unfold bind at 1. rewrite forEach_removals.
    rewrite times_padding. rewrite IH. by rewrite <- !app_assoc.
Qed.

(** [makeSchema.js] appends the same operations. *)
Lemma makeSchema_columns_normalize change node (d : list RowDiagnosis) g :
  MakeSchema.rowsContainRequiredColumns_normalize opts change node d g
  = Ok (change ++ columnOps opts d g) (columnGen d g).
Proof.
  unfold MakeSchema.rowsContainRequiredColumns_normalize.
  revert change g. induction d as [|e d IH]; intros change g; simpl.
  - unfold ret. by rewrite app_nil_r.
  - unfold bind at 1. unfold bind at 1. rewrite forEach_removals.
    unfold bind at 1.
    change (MakeSchema.makeEmptyCell opts)
      with (ValidateNode.makeEmptyCell opts).
    rewrite times_padding. unfold ret at 1. rewrite IH.
    by rewrite <- !app_assoc.
Qed.

Lemma forEach_insertions parent (rows : list Node) (change : Change) g :
  forEach (λ change child,
             ret (insertNodeByKey change parent 0 child true))
          rows change g
  = Ok (change
        ++ ((λ child, InsertNodeByKey parent 0 child true) <$> rows)) g.
Proof.
  revert change. induction rows as [|c cs IH]; intros change; simpl.
  - unfold ret. by rewrite app_nil_r.
  - unfold bind, ret at 1. simpl. rewrite IH. unfold insertNodeByKey.
    by rewrite <- app_assoc.
Qed.

(** What the rows-only [normalize] appends, in both files. *)
Lemma rows_normalize change node (d : RowsDiagnosis) g :
  ValidateNode.tablesContainOnlyRows_normalize change node d g
  = Ok (change ++ rowsOps node d) g
  ∧ MakeSchema.tablesContainOnlyRows_normalize change node d g
    = Ok (change ++ rowsOps node d) g.
Proof.
  unfold ValidateNode.tablesContainOnlyRows_normalize,
    MakeSchema.tablesContainOnlyRows_normalize, rowsOps.
  split; unfold bind at 1; rewrite forEach_removals; unfold bind at 1;
    rewrite forEach_insertions; unfold ret; by rewrite <- app_assoc.
Qed.

End Emission.

Section Keys.

Lemma nodeKey_in_keys n : nodeKey n ∈ Host.keys n.
Proof. destruct n; simpl; apply list_elem_of_here. Qed.

Lemma keys_Block k ty d ns :
  Host.keys (Block k ty d ns) = k :: (ns ≫= Host.keys).
Proof. reflexivity. Qed.

Lemma keys_of_child n c k :
  c ∈ nodeNodes n → k ∈ Host.keys c → k ∈ Host.keys n.
Proof.
  destruct n as [k' ty d ns|]; simpl; [|by intros ?%elem_of_nil].
  intros Hc Hk. apply list_elem_of_further, list_elem_of_bind. eauto.
Qed.

Lemma childKey_in_keys n k :
  k ∈ nodeKey <$> nodeNodes n → k ∈ Host.keys n.
Proof.
  intros (c & -> & Hc)%list_elem_of_fmap.
  eapply keys_of_child; [exact Hc|apply nodeKey_in_keys].
Qed.

(** In a list of subtrees with pairwise distinct keys, a key tells the
    subtree it is in. *)
Lemma keys_disjoint (ns : list Node) x y k :
  NoDup (ns ≫= Host.keys) →
  x ∈ ns → y ∈ ns → k ∈ Host.keys x → k ∈ Host.keys y → x = y.
Proof.
  induction ns as [|n ns IH]; [by intros _ ?%elem_of_nil|].
  rewrite bind_cons, NoDup_app. intros (_ & Hdisj & Hns) Hx Hy Hkx Hky.
  apply elem_of_cons in Hx as [->|Hx], Hy as [->|Hy]; [done| | |by eauto].
  - exfalso. apply (Hdisj k Hkx), list_elem_of_bind. eauto.
  - exfalso. apply (Hdisj k Hky), list_elem_of_bind. eauto.
Qed.

Lemma children_NoDup (ns : list Node) :
  NoDup (ns ≫= Host.keys) → NoDup ns.
Proof.
  induction ns as [|n ns IH]; [constructor|].
  rewrite bind_cons, NoDup_app. intros (_ & Hdisj & Hns).
  apply NoDup_cons. split; [|by apply IH].
  intros Hn. apply (Hdisj (nodeKey n) (nodeKey_in_keys n)).
  apply list_elem_of_bind. exists n. split; [apply nodeKey_in_keys|done].
Qed.

Lemma wellKeyed_children table :
  Host.wellKeyed table →
  NoDup (nodeNodes table ≫= Host.keys)
  ∧ ∀ k, k ∈ nodeNodes table ≫= Host.keys → k ≠ nodeKey table.
Proof.
  unfold Host.wellKeyed. destruct table as [k ty d ns|k s]; simpl.
  - rewrite NoDup_cons. intros [Hk Hns]. split; [done|]. by intros k' ? ->.
  - intros _. split; [constructor|]. by intros k' ?%elem_of_nil.
Qed.

End Keys.

Section Ordering.

Variable opts : Options.
Variable createAlign : nat → list string → list string.

Lemma removalsFirst_tail table op ops :
  removalsFirst table (op :: ops) → removalsFirst table ops.
Proof.
  intros H before after parent index node flag key flag' -> Hin.
  by apply (H (op :: before) after parent index node flag key flag').
Qed.

Lemma removalsFirst_app table ops1 ops2 :
  removalsFirst table ops1 →
  removalsFirst table ops2 →
  (∀ parent index node flag key flag',
     InsertNodeByKey parent index node flag ∈ ops1 →
     RemoveNodeByKey key flag' ∈ ops2 →
     ¬ childKeyOf table parent key) →
  removalsFirst table (ops1 ++ ops2).
Proof.
  induction ops1 as [|op ops1 IH]; intros H1 H2 Hcross; [done|].
  intros before after parent index node flag key flag' Hsplit Hin.
  destruct before as [|b before]; simpl in Hsplit.
  - injection Hsplit as -> <-. apply elem_of_app in Hin as [Hin|Hin].
    + by apply (H1 [] ops1 parent index node flag key flag').
    + eapply Hcross; [apply list_elem_of_here|exact Hin].
  - injection Hsplit as <- Hsplit.
    eapply (IH (removalsFirst_tail _ _ _ H1) H2); [|exact Hsplit|exact Hin].
    intros p i n f k f' Hi Hr.
    apply (Hcross p i n f k f'); [by apply list_elem_of_further|done].
Qed.

Lemma removalsFirst_no_insertion table ops :
  (∀ parent index node flag,
     InsertNodeByKey parent index node flag ∉ ops) →
  removalsFirst table ops.
Proof.
  intros H before after parent index node flag key flag' -> _.
  exfalso. eapply H, elem_of_app. right. apply list_elem_of_here.
Qed.

Lemma removalsFirst_no_removal table ops :
  (∀ key flag, RemoveNodeByKey key flag ∉ ops) →
  removalsFirst table ops.
Proof.
  intros H before after parent index node flag key flag' -> Hin.
  exfalso. eapply H, elem_of_app. right. apply list_elem_of_further, Hin.
Qed.

Lemma removalOps_no_insertion invalids parent index node flag :
  InsertNodeByKey parent index node flag ∉ removalOps invalids.
Proof. unfold removalOps. by intros (c & [=] & _)%list_elem_of_fmap. Qed.

Lemma elem_of_removalOps invalids key flag :
  RemoveNodeByKey key flag ∈ removalOps invalids →
  key ∈ nodeKey <$> invalids.
Proof.
  unfold removalOps. intros (c & [= -> _] & Hc)%list_elem_of_fmap.
  apply list_elem_of_fmap. eauto.
Qed.

Lemma elem_of_paddingOps parent n g op :
  op ∈ paddingOps opts parent n g →
  ∃ g', op = InsertNodeByKey parent 0 (emptyCellAt opts g') false
        ∧ (g ≤ g')%nat.
Proof.
  revert g. induction n as [|n IH]; intros g; simpl.
  - by intros ?%elem_of_nil.
  - intros [->|Hin]%elem_of_cons; [eauto|].
    destruct (IH _ Hin) as (g' & -> & Hg). exists g'. split; [done|lia].
Qed.

Lemma elem_of_columnOps_removal (d : list RowDiagnosis) g key flag :
  RemoveNodeByKey key flag ∈ columnOps opts d g →
  ∃ entry, entry ∈ d ∧ key ∈ nodeKey <$> invalids entry.
Proof.
  revert g. induction d as [|e d IH]; intros g; simpl.
  - by intros ?%elem_of_nil.
  - rewrite !elem_of_app. intros [Hin|[Hin|Hin]].
    + exists e. split; [apply list_elem_of_here|by eapply elem_of_removalOps].
    + by apply elem_of_paddingOps in Hin as (g' & [=] & _).
    + destruct (IH _ Hin) as (entry & He & Hk). exists entry.
      split; [by apply list_elem_of_further|done].
Qed.

(** The column-count operations keep the removals of a row's children
    ahead of the insertions into that row, when the entries are about
    distinct rows of a well-keyed table. *)
Lemma columnOps_removalsFirst table (d : list RowDiagnosis) g :
  Host.wellKeyed table →
  NoDup (row <$> d) →
  Forall (λ entry, row entry ∈ nodeNodes table
                   ∧ invalids entry ⊆ nodeNodes (row entry)) d →
  removalsFirst table (columnOps opts d g).
Proof.
  intros Hwk. destruct (wellKeyed_children table Hwk) as [Hnodup Hroot].
  revert g. induction d as [|e d IH]; intros g Hd Hrows; simpl.
  - apply removalsFirst_no_insertion. by intros ? ? ? ? ?%elem_of_nil.
  - rewrite fmap_cons in Hd. apply NoDup_cons in Hd as [He Hd].
    apply Forall_cons in Hrows as [[Hrow Hinv] Hrows].
    apply removalsFirst_app.
    + apply removalsFirst_no_insertion. intros.
      apply removalOps_no_insertion.
    + apply removalsFirst_app.
      * apply removalsFirst_no_removal.
        intros key flag Hin. by apply elem_of_paddingOps in Hin as (? & [=] & _).
      * by apply IH.
      * intros parent index node flag key flag' Hins Hrem.
        apply elem_of_paddingOps in Hins as (g' & [= -> _ _ _] & _).
        apply elem_of_columnOps_removal in Hrem as (e' & He' & Hkey).
        intros (p & Hp & Hpk & Hchild).
        rewrite Forall_forall in Hrows. destruct (Hrows e' He') as [Hrow' Hinv'].
        assert (key ∈ Host.keys (row e')) as Hkey'.
        { apply childKey_in_keys.
          apply list_elem_of_fmap in Hkey as (c & -> & Hc).
          apply list_elem_of_fmap. exists c. split; [done|by apply Hinv']. }
        apply childKey_in_keys in Hchild.
        apply elem_of_cons in Hp as [->|Hp].
        { apply (Hroot (nodeKey (row e))); [|done].
          apply list_elem_of_bind. exists (row e).
          split; [apply nodeKey_in_keys|done]. }
        assert (p = row e) as ->.
        { apply (keys_disjoint (nodeNodes table) p (row e) (nodeKey p));
            [done..|apply nodeKey_in_keys|].
          rewrite Hpk. apply nodeKey_in_keys. }
        assert (row e = row e') as Heq
          by by apply (keys_disjoint (nodeNodes table) _ _ key).
        apply He. rewrite Heq. apply list_elem_of_fmap. eauto.
    + intros parent index node flag key flag' Hins _.
      by apply removalOps_no_insertion in Hins.
Qed.

Lemma diagnosis_rows columns (rows : list Node) :
  row <$> filterBoolean (ValidateNode.diagnoseRow opts columns <$> rows)
  = filter (λ r, is_Some (ValidateNode.diagnoseRow opts columns r)) rows.
Proof.
  unfold filterBoolean. induction rows as [|r rows IH]; [done|].
  rewrite fmap_cons. simpl.
  destruct (ValidateNode.diagnoseRow opts columns r) as [e|] eqn:He; simpl.
  - rewrite filter_cons_True by (by rewrite He).
    apply diagnoseRow_Some in He as (-> & _). by rewrite <- IH.
  - rewrite filter_cons_False; [done|]. rewrite He. by intros [? ?].
Qed.

Lemma diagnosis_entries table :
  let rows := filter (isRow opts) (nodeNodes table) in
  Forall (λ entry, row entry ∈ nodeNodes table
                   ∧ invalids entry ⊆ nodeNodes (row entry))
         (filterBoolean
            (ValidateNode.diagnoseRow opts (ValidateNode.columnsOf opts rows)
             <$> rows)).
Proof.
  intros rows. apply Forall_forall. intros e He.
  apply elem_of_filterBoolean in He as (r & Hr & He).
  apply diagnoseRow_Some in He as (-> & -> & _).
  apply list_elem_of_filter in Hr as [_ Hr]. split; [done|].
  intros c Hc. by apply list_elem_of_filter in Hc as [_ Hc].
Qed.

Lemma columns_diagnosis_removalsFirst table g :
  Host.wellKeyed table →
  let rows := filter (isRow opts) (nodeNodes table) in
  removalsFirst table
    (columnOps opts
       (filterBoolean
          (ValidateNode.diagnoseRow opts (ValidateNode.columnsOf opts rows)
           <$> rows)) g).
Proof.
  intros Hwk rows. apply columnOps_removalsFirst; [done| |].
  - rewrite diagnosis_rows. do 2 apply NoDup_filter.
    apply children_NoDup. by apply wellKeyed_children.
  - apply diagnosis_entries.
Qed.

Lemma rowsOps_removalsFirst table (d : RowsDiagnosis) :
  removalsFirst table (rowsOps table d).
Proof.
  apply removalsFirst_app.
  - apply removalsFirst_no_insertion. intros.
    apply removalOps_no_insertion.
  - apply removalsFirst_no_removal.
    by intros key flag (c & [=] & _)%list_elem_of_fmap.
  - intros parent index node flag key flag' Hins _.
    by apply removalOps_no_insertion in Hins.
Qed.

(** C7. Every rule's [normalize], run on the diagnosis that its
    [validate] gave for a table with pairwise distinct keys, appends to the
    change operations among which no child of a parent is removed after an
    insertion into that parent. *)
Theorem removals_before_insertions (rule : Rule) table
  (d : Diagnosis rule) change g g' :
  rule ∈ allRules opts createAlign →
  Host.wellKeyed table →
  validate rule table g = Ok (Some d) g' →
  ∃ ops g'',
    normalize rule change table d g' = Ok (change ++ ops) g''
    ∧ removalsFirst table ops.
Proof.
  intros Hrule Hwk Hd. unfold allRules, ValidateNode.rules,
    MakeSchema.makeSchema in Hrule.
  rewrite elem_of_cons, elem_of_app, !elem_of_cons, !elem_of_nil in Hrule.
  destruct Hrule as [->|[[->|[->|[]]]|[->|[->|[]]]]]; simpl in *.
  - exists (rowsOps table d), g'.
    split; [apply rows_normalize|apply rowsOps_removalsFirst].
  - rewrite validateNode_columns_validate in Hd. simpl in Hd.
    destruct (filterBoolean _) as [|e d'] eqn:Hfb; [done|].
    injection Hd as <- <-. rewrite <- Hfb.
    eexists _, _. split; [apply validateNode_columns_normalize|].
    by apply columns_diagnosis_removalsFirst.
  - exists [SetNodeByKey (nodeKey table)
              (<["align" := createAlign (columns d) (align d)]>
                 (nodeData table)) false], g'.
    split; [done|]. apply removalsFirst_no_removal.
    intros key flag Hin. apply list_elem_of_singleton in Hin. discriminate.
  - exists (rowsOps table d), g'.
    split; [apply rows_normalize|apply rowsOps_removalsFirst].
  - rewrite makeSchema_columns_validate in Hd. simpl in Hd.
    destruct (decide (Forall _ _)); [done|]. injection Hd as <- <-.
    eexists _, _. split; [apply makeSchema_columns_normalize|].
    by apply columns_diagnosis_removalsFirst.
Qed.

End Ordering.

Section HostEdits.

Lemma removeNode_absent n :
  ∀ k, k ∉ Host.keys n → Host.removeNode k n = None.
Proof.
  apply (Node_rect'
           (λ n, ∀ k, k ∉ Host.keys n → Host.removeNode k n = None)
           (λ ns, ∀ k, k ∉ ns ≫= Host.keys →
                       Host.removeFirst (Host.removeNode k) k ns = None)).
  - done.
  - intros k' ty d ns IH k Hk. simpl. rewrite IH; [done|].
    intros Hin. apply Hk. by apply list_elem_of_further.
  - done.
  - intros x ns IHx IHns k Hk. rewrite bind_cons, not_elem_of_app in Hk.
    destruct Hk as [Hx Hns]. simpl.
    destruct (decide (nodeKey x = k)) as [<-|_].
    + exfalso. apply Hx, nodeKey_in_keys.
    + by rewrite IHx, IHns.
Qed.

Lemma insertNode_absent parent index child n :
  parent ∉ Host.keys n → Host.insertNode parent index child n = None.
Proof.
  revert n.
  apply (Node_rect'
           (λ n, parent ∉ Host.keys n →
                 Host.insertNode parent index child n = None)
           (λ ns, parent ∉ ns ≫= Host.keys →
                  Host.updateFirst (Host.insertNode parent index child) ns
                  = None)).
  - done.
  - intros k ty d ns IH Hk. simpl. rewrite keys_Block, not_elem_of_cons in Hk.
    destruct Hk as [Hne Hk].
    destruct (decide (k = parent)) as [->|_]; [done|]. by rewrite IH.
  - done.
  - intros x ns IHx IHns Hk. rewrite bind_cons, not_elem_of_app in Hk.
    destruct Hk as [Hx Hns]. simpl. by rewrite IHx, IHns.
Qed.

Lemma removeNode_key k n n' :
  Host.removeNode k n = Some n' → nodeKey n' = nodeKey n.
Proof.
  destruct n as [k' ty d ns|]; simpl; [|done].
  destruct (Host.removeFirst _ k ns); simpl; [|done]. by intros [= <-].
Qed.

(** Removal of a direct child. *)
Lemma removeFirst_child k (before after : list Node) c :
  k ∉ before ≫= Host.keys →
  nodeKey c = k →
  Host.removeFirst (Host.removeNode k) k (before ++ c :: after)
  = Some (before ++ after).
Proof.
  intros Hbefore Hc. induction before as [|x before IH]; simpl.
  - by rewrite decide_True.
  - rewrite bind_cons, not_elem_of_app in Hbefore.
    destruct Hbefore as [Hx Hbefore].
    destruct (decide (nodeKey x = k)) as [<-|_].
    + exfalso. apply Hx, nodeKey_in_keys.
    + by rewrite (removeNode_absent x k Hx), IH.
Qed.

(** Removal under a direct child. *)
Lemma removeFirst_below k (before after : list Node) r r' :
  k ∉ before ≫= Host.keys →
  nodeKey r ≠ k →
  Host.removeNode k r = Some r' →
  Host.removeFirst (Host.removeNode k) k (before ++ r :: after)
  = Some (before ++ r' :: after).
Proof.
  intros Hbefore Hr Hrem. induction before as [|x before IH]; simpl.
  - by rewrite decide_False, Hrem.
  - rewrite bind_cons, not_elem_of_app in Hbefore.
    destruct Hbefore as [Hx Hbefore].
    destruct (decide (nodeKey x = k)) as [<-|_].
    + exfalso. apply Hx, nodeKey_in_keys.
    + by rewrite (removeNode_absent x k Hx), IH.
Qed.

Lemma updateFirst_first (f : Node → option Node) (before after : list Node)
  r r' :
  Forall (λ x, f x = None) before →
  f r = Some r' →
  Host.updateFirst f (before ++ r :: after) = Some (before ++ r' :: after).
Proof.
  intros Hbefore Hr. induction Hbefore as [|x before Hx _ IH]; simpl.
  - by rewrite Hr.
  - by rewrite Hx, IH.
Qed.

Lemma applyChange_app ops1 ops2 doc :
  Host.applyChange (ops1 ++ ops2) doc
  = Host.applyChange ops1 doc ≫= Host.applyChange ops2.
Proof.
  revert doc. induction ops1 as [|op ops1 IH]; intros doc; simpl; [done|].
  destruct (Host.applyOp doc op); simpl; [apply IH|done].
Qed.

(** Removing, one by one, the children of a block that fail [P] leaves
    the children that satisfy it. *)
Lemma remove_children (P : Node → Prop) `{!∀ x, Decision (P x)}
  k ty d (kept todo : list Node) :
  NoDup (todo ≫= Host.keys) →
  (∀ key, key ∈ todo ≫= Host.keys → key ∉ kept ≫= Host.keys) →
  Host.applyChange (removalOps (filter (λ n, ¬ P n) todo))
    (Block k ty d (kept ++ todo))
  = Some (Block k ty d (kept ++ filter P todo)).
Proof.
  revert kept. induction todo as [|x todo IH]; intros kept Hnodup Hkept.
  - done.
  - rewrite bind_cons, NoDup_app in Hnodup.
    destruct Hnodup as (_ & Hx & Hnodup).
    destruct (decide (P x)) as [HP|HP].
    + rewrite filter_cons_False by (intros HnP; by apply HnP).
      rewrite filter_cons_True by done.
      rewrite (cons_middle x kept todo), app_assoc, IH; [|done|].
      * by rewrite <- app_assoc.
      * intros key Hkey. rewrite bind_app, not_elem_of_app. split.
        -- apply Hkept. rewrite bind_cons, elem_of_app. by right.
        -- rewrite bind_singleton. intros Hin. by apply (Hx key).
    + rewrite filter_cons_True by done. rewrite filter_cons_False by done.
      unfold removalOps. rewrite fmap_cons. simpl.
      rewrite (removeFirst_child (nodeKey x) kept todo x); [|
        apply Hkept; rewrite bind_cons, elem_of_app; left;
        apply nodeKey_in_keys|done]. simpl.
      apply IH; [done|]. intros key Hkey. apply Hkept.
      rewrite bind_cons, elem_of_app. by right.
Qed.

(** Removals that succeed on a child of a table succeed on the table,
    and change that child only. *)
Lemma removals_below (cs : list Node) tk tty td (before after : list Node)
  r r' :
  Host.applyChange (removalOps cs) r = Some r' →
  Forall (λ c, (nodeKey c ∉ before ≫= Host.keys)
               ∧ nodeKey c ≠ nodeKey r) cs →
  Host.applyChange (removalOps cs) (Block tk tty td (before ++ r :: after))
  = Some (Block tk tty td (before ++ r' :: after)).
Proof.
  revert r. induction cs as [|c cs IH]; intros r Hr Hcs.
  - simpl in *. by injection Hr as ->.
  - apply Forall_cons in Hcs as [[Hbefore Hne] Hcs].
    unfold removalOps in *. rewrite fmap_cons in *. simpl in *.
    destruct (Host.removeNode (nodeKey c) r) as [r1|] eqn:Hrem; [|done].
    rewrite (removeFirst_below (nodeKey c) before after r r1); [|done..].
    simpl. apply IH; [done|].
    rewrite (removeNode_key _ _ _ Hrem). done.
Qed.

Section Padding.

Variable opts : Options.

(** Insertions of empty cells at the head of a row of a table. *)
Lemma padding_at_row tk tty td (before after : list Node) rk rty rd ns n g :
  tk ≠ rk →
  rk ∉ before ≫= Host.keys →
  Host.applyChange (paddingOps opts rk n g)
    (Block tk tty td (before ++ Block rk rty rd ns :: after))
  = Some (Block tk tty td
            (before ++ Block rk rty rd (paddingCells opts n g ++ ns)
             :: after)).
Proof.
  intros Htk Hbefore. revert g ns. induction n as [|n IH]; intros g ns.
  - done.
  - simpl. rewrite decide_False by done.
    rewrite (updateFirst_first _ before after (Block rk rty rd ns)
               (Block rk rty rd (emptyCellAt opts g :: ns))).
    + simpl. rewrite IH. by rewrite <- app_assoc.
    + apply Forall_forall. intros x Hx. apply insertNode_absent.
      intros Hin. apply Hbefore, list_elem_of_bind. eauto.
    + simpl. by rewrite decide_True.
Qed.

Lemma paddingCells_keys n g k :
  k ∈ paddingCells opts n g ≫= Host.keys → (g ≤ k)%nat.
Proof.
  revert g. induction n as [|n IH]; intros g; simpl.
  - by intros ?%elem_of_nil.
  - rewrite bind_app, elem_of_app, bind_singleton. intros [Hin|Hin].
    + apply IH in Hin. lia.
    + simpl in Hin. rewrite !elem_of_cons, elem_of_nil in Hin. lia.
Qed.

Lemma paddingCells_cells n g :
  Forall (λ c, ∃ g', c = emptyCellAt opts g' ∧ (g ≤ g')%nat)
         (paddingCells opts n g).
Proof.
  revert g. induction n as [|n IH]; intros g; simpl; [constructor|].
  apply Forall_app. split.
  - eapply Forall_impl; [apply IH|]. intros c (g' & -> & Hg).
    exists g'. split; [done|lia].
  - repeat constructor. by exists g.
Qed.

Lemma paddingCells_length n g : length (paddingCells opts n g) = n.
Proof.
  revert g. induction n as [|n IH]; intros g; simpl; [done|].
  rewrite length_app, IH. simpl. lia.
Qed.

Lemma filter_paddingCells n g :
  filter (isCell opts) (paddingCells opts n g) = paddingCells opts n g.
Proof.
  apply filter_all. eapply Forall_impl; [apply paddingCells_cells|].
  by intros c (g' & -> & _).
Qed.

End Padding.

End HostEdits.

Section ColumnRepair.

Variable opts : Options.

Lemma keys_filter (P : Node → Prop) `{!∀ x, Decision (P x)} (ns : list Node)
  k :
  k ∈ filter P ns ≫= Host.keys → k ∈ ns ≫= Host.keys.
Proof.
  rewrite !list_elem_of_bind. intros (c & Hk & Hc).
  apply list_elem_of_filter in Hc as [_ Hc]. eauto.
Qed.

Lemma filterBoolean_cons_Some {A B} (f : A → option B) x xs y :
  f x = Some y →
  filterBoolean (f <$> x :: xs) = y :: filterBoolean (f <$> xs).
Proof. intros H. unfold filterBoolean. rewrite fmap_cons. simpl. by rewrite H. Qed.

Lemma filterBoolean_cons_None {A B} (f : A → option B) x xs :
  f x = None →
  filterBoolean (f <$> x :: xs) = filterBoolean (f <$> xs).
Proof. intros H. unfold filterBoolean. rewrite fmap_cons. simpl. by rewrite H. Qed.

(** The repair of one entry, applied to the table. *)
Lemma repair_row columns tk tty td (before after : list Node)
  rk rty rd rns g :
  let r := Block rk rty rd rns in
  NoDup (Host.keys r) →
  (∀ k, k ∈ Host.keys r → k ∉ before ≫= Host.keys) →
  tk ≠ rk →
  Host.applyChange
    (removalOps (filter (λ n, ¬ isCell opts n) rns)
     ++ paddingOps opts rk (rangeSize (columns - countCells opts r)) g)
    (Block tk tty td (before ++ r :: after))
  = Some (Block tk tty td (before ++ repairedRow opts columns g r :: after)).
Proof.
  intros r Hnodup Hbefore Htk. subst r. rewrite applyChange_app.
  rewrite keys_Block, NoDup_cons in Hnodup. destruct Hnodup as [Hrk Hrns].
  rewrite (removals_below _ tk tty td before after (Block rk rty rd rns)
             (Block rk rty rd (filter (isCell opts) rns))).
  - simpl. apply padding_at_row; [done|].
    apply Hbefore, list_elem_of_here.
  - apply (remove_children (isCell opts) rk rty rd [] rns); [done|].
    by intros key _ ?%elem_of_nil.
  - apply Forall_forall. intros c Hc.
    apply list_elem_of_filter in Hc as [_ Hc].
    assert (nodeKey c ∈ rns ≫= Host.keys) as Hkey.
    { apply list_elem_of_bind. exists c. split; [apply nodeKey_in_keys|done]. }
    split.
    + apply Hbefore. by apply list_elem_of_further.
    + simpl. intros Heq. apply Hrk. by rewrite <- Heq.
Qed.

Lemma repairedRow_keys columns g r k :
  k ∈ Host.keys (repairedRow opts columns g r) →
  k ∈ Host.keys r ∨ (g ≤ k)%nat.
Proof.
  destruct r as [rk rty rd rns|]; simpl; [|by left].
  rewrite !elem_of_cons, bind_app, elem_of_app.
  intros [->|[Hin|Hin]].
  - left. by left.
  - right. by eapply paddingCells_keys.
  - left. right. by eapply keys_filter.
Qed.

(** The column-count operations, applied to a table whose keys are
    pairwise distinct and older than the generator. *)
Lemma column_repair_nodes columns tk tty td (todo : list Node) :
  ∀ (before : list Node) g,
    NoDup (todo ≫= Host.keys) →
    (∀ k, k ∈ todo ≫= Host.keys →
          (k ∉ before ≫= Host.keys) ∧ k ≠ tk ∧ (k < g)%nat) →
    Host.applyChange
      (columnOps opts
         (filterBoolean (ValidateNode.diagnoseRow opts columns
                         <$> filter (isRow opts) todo)) g)
      (Block tk tty td (before ++ todo))
    = Some (Block tk tty td (before ++ repairedNodes opts columns todo g)).
Proof.
  induction todo as [|x todo IH]; intros before g Hnodup Hkeys; [done|].
  rewrite bind_cons, NoDup_app in Hnodup.
  destruct Hnodup as (Hx & Hdisj & Hnodup).
  assert (∀ k, k ∈ Host.keys x →
               (k ∉ before ≫= Host.keys) ∧ k ≠ tk ∧ (k < g)%nat) as Hkx.
  { intros k Hk. apply Hkeys. rewrite bind_cons, elem_of_app. by left. }
  assert (∀ k, k ∈ todo ≫= Host.keys →
               (k ∉ before ≫= Host.keys) ∧ k ≠ tk ∧ (k < g)%nat) as Hkt.
  { intros k Hk. apply Hkeys. rewrite bind_cons, elem_of_app. by right. }
  simpl repairedNodes.
  destruct (decide (isRow opts x
                    ∧ is_Some (ValidateNode.diagnoseRow opts columns x)))
    as [[Hrow [e He]]|Hskip].
  - destruct x as [rk rty rd rns|]; [|done].
    rewrite filter_cons_True by done.
    rewrite (filterBoolean_cons_Some _ _ _ e He).
    apply diagnoseRow_Some in He as (Hr & Hi & Ha & _).
    cbn [columnOps]. rewrite Hr, Hi, Ha. cbn [nodeNodes nodeKey].
    rewrite app_assoc, applyChange_app.
    rewrite (repair_row columns tk tty td before todo rk rty rd rns g);
      [|done| |].
    + cbn [mbind option_bind].
      rewrite (cons_middle _ before), app_assoc, IH; [|done|].
      * by rewrite <- app_assoc.
      * intros k Hk. destruct (Hkt k Hk) as (Hb & Htk & Hg).
        split_and!; [|done|lia].
        rewrite bind_app, not_elem_of_app, bind_singleton. split; [done|].
        intros [Hin|Hin]%repairedRow_keys; [|lia].
        by apply (Hdisj k).
    + intros k Hk. by apply Hkx.
    + intros ->. destruct (Hkx rk) as (_ & Hne & _); [|done].
      apply list_elem_of_here.
  - assert (filterBoolean (ValidateNode.diagnoseRow opts columns
                           <$> filter (isRow opts) (x :: todo))
            = filterBoolean (ValidateNode.diagnoseRow opts columns
                             <$> filter (isRow opts) todo)) as ->.
    { destruct (decide (isRow opts x)) as [Hrow|Hrow].
      - rewrite filter_cons_True by done.
        apply filterBoolean_cons_None.
        destruct (ValidateNode.diagnoseRow opts columns x) eqn:He; [|done].
        exfalso. apply Hskip. by split.
      - by rewrite filter_cons_False. }
    rewrite (cons_middle x before), app_assoc, IH; [|done|].
    + by rewrite <- app_assoc.
    + intros k Hk. destruct (Hkt k Hk) as (Hb & Htk & Hg). split_and!; [|done..].
      rewrite bind_app, not_elem_of_app, bind_singleton. split; [done|].
      intros Hin. by apply (Hdisj k).
Qed.

Lemma paddedFrom_refl g r : paddedFrom opts g r r.
Proof. split_and!; [done..|]. exists []. by split. Qed.

Lemma paddedFrom_mono g g' r r' :
  (g ≤ g')%nat → paddedFrom opts g' r r' → paddedFrom opts g r r'.
Proof.
  intros Hg (Hk & Hty & pad & Hpad & Hcells). split_and!; [done..|].
  exists pad. split; [done|]. eapply Forall_impl; [exact Hcells|].
  intros c (gc & -> & Hgc). exists gc. split; [done|lia].
Qed.

Lemma repairedRow_padded columns g r :
  isRow opts r →
  (countCells opts r ≤ columns)%Z →
  paddedFrom opts g r (repairedRow opts columns g r)
  ∧ countCells opts (repairedRow opts columns g r) = columns.
Proof.
  intros Hrow Hle. destruct r as [rk rty rd rns|]; [|done].
  assert (filter (isCell opts)
            (paddingCells opts
               (rangeSize (columns - countCells opts (Block rk rty rd rns))) g
             ++ filter (isCell opts) rns)
          = paddingCells opts
              (rangeSize (columns - countCells opts (Block rk rty rd rns))) g
            ++ filter (isCell opts) rns) as Hcells.
  { rewrite filter_app, filter_paddingCells. f_equal.
    apply list_filter_filter_l. done. }
  split.
  - split_and!; [done..|]. eexists. split; [exact Hcells|].
    apply paddingCells_cells.
  - unfold countCells at 1. cbn [repairedRow nodeNodes]. rewrite Hcells.
    rewrite length_app, paddingCells_length. unfold rangeSize.
    unfold countCells in *. cbn [nodeNodes] in *. lia.
Qed.

(** What the repaired children are to the children before the repair. *)
Lemma repairedNodes_padded columns (ns : list Node) g :
  (∀ r, r ∈ ns → isRow opts r → (countCells opts r ≤ columns)%Z) →
  Forall2 (λ n n', if decide (isRow opts n)
                   then paddedFrom opts g n n'
                        ∧ countCells opts n' = columns
                   else n' = n)
          ns (repairedNodes opts columns ns g).
Proof.
  revert g. induction ns as [|x ns IH]; intros g Hle; [constructor|].
  assert (∀ g', (g ≤ g')%nat →
    Forall2 (λ n n', if decide (isRow opts n)
                     then paddedFrom opts g n n'
                          ∧ countCells opts n' = columns
                     else n' = n)
            ns (repairedNodes opts columns ns g')) as Hrest.
  { intros g' Hg. eapply Forall2_impl; [apply IH|].
    - intros r Hr. apply Hle. by apply list_elem_of_further.
    - intros n n'. simpl. destruct (decide (isRow opts n)); [|done].
      intros [Hp Hc]. split; [by eapply paddedFrom_mono|done]. }
  cbn [repairedNodes].
  destruct (decide (isRow opts x
                    ∧ is_Some (ValidateNode.diagnoseRow opts columns x)))
    as [[Hrow _]|Hskip].
  - constructor; [|apply Hrest; lia].
    rewrite decide_True by done. apply repairedRow_padded; [done|].
    apply Hle; [apply list_elem_of_here|done].
  - constructor; [|by apply Hrest].
    destruct (decide (isRow opts x)) as [Hrow|Hrow]; [|done].
    split; [apply paddedFrom_refl|].
    destruct (ValidateNode.diagnoseRow opts columns x) eqn:He.
    + exfalso. apply Hskip. by split.
    + by apply diagnoseRow_None in He as [_ He].
Qed.

Lemma wellKeyed_todo tk tty td (ns : list Node) g :
  Host.wellKeyed (Block tk tty td ns) →
  Host.freshFor g (Block tk tty td ns) →
  NoDup (ns ≫= Host.keys)
  ∧ ∀ k, k ∈ ns ≫= Host.keys →
         (k ∉ @nil Node ≫= Host.keys) ∧ k ≠ tk ∧ (k < g)%nat.
Proof.
  unfold Host.wellKeyed, Host.freshFor. rewrite keys_Block, NoDup_cons.
  intros [Htk Hnodup] Hfresh. split; [done|]. intros k Hk. split_and!.
  - by intros ?%elem_of_nil.
  - by intros ->.
  - rewrite Forall_forall in Hfresh. by apply Hfresh, list_elem_of_further.
Qed.

(** The column-count repair of validateNode.js, run by the host. *)
Lemma validateNode_columns_repair tk td (ns : list Node) g :
  let table := Block tk (typeTable opts) td ns in
  Host.wellKeyed table →
  Host.freshFor g table →
  repair (ValidateNode.toValidateNode
            (ValidateNode.rowsContainRequiredColumns opts)) table g
  = Some (Block tk (typeTable opts) td
            (repairedNodes opts
               (ValidateNode.columnsOf opts (filter (isRow opts) ns)) ns g)).
Proof.
  intros table Hwk Hfresh. subst table.
  destruct (wellKeyed_todo _ _ _ _ _ Hwk Hfresh) as [Hnodup Hkeys].
  pose proof (column_repair_nodes
                (ValidateNode.columnsOf opts (filter (isRow opts) ns))
                tk (typeTable opts) td ns [] g Hnodup Hkeys) as Happly.
  rewrite !app_nil_l in Happly.
  unfold repair, ValidateNode.toValidateNode, bind.
  cbn [match_ ValidateNode.rowsContainRequiredColumns validate normalize].
  unfold ValidateNode.isTable. rewrite bool_decide_eq_true_2 by done.
  cbn [negb]. rewrite validateNode_columns_validate. cbn [nodeNodes].
  destruct (filterBoolean _) as [|e d] eqn:Hd.
  - unfold ret. simpl in Happly. by injection Happly as <-.
  - unfold ret. rewrite validateNode_columns_normalize, app_nil_l.
    exact Happly.
Qed.

(** The column-count repair of makeSchema.js, run by the host: nothing
    when every row has [columns] cells, else the repair above. *)
Lemma makeSchema_columns_repair tk td (ns : list Node) g :
  let table := Block tk (typeTable opts) td ns in
  let columns := ValidateNode.columnsOf opts (filter (isRow opts) ns) in
  Host.wellKeyed table →
  Host.freshFor g table →
  repair (ValidateNode.toValidateNode
            (MakeSchema.rowsContainRequiredColumns opts)) table g
  = Some (if decide (Forall (λ r, countCells opts r = columns)
                            (filter (isRow opts) ns))
          then table
          else Block tk (typeTable opts) td
                 (repairedNodes opts columns ns g)).
Proof.
  intros table columns Hwk Hfresh. subst table columns.
  destruct (wellKeyed_todo _ _ _ _ _ Hwk Hfresh) as [Hnodup Hkeys].
  pose proof (column_repair_nodes
                (ValidateNode.columnsOf opts (filter (isRow opts) ns))
                tk (typeTable opts) td ns [] g Hnodup Hkeys) as Happly.
  rewrite !app_nil_l in Happly.
  unfold repair, ValidateNode.toValidateNode, bind.
  cbn [match_ MakeSchema.rowsContainRequiredColumns validate normalize].
  unfold MakeSchema.isTable. rewrite bool_decide_eq_true_2 by done.
  cbn [negb]. rewrite makeSchema_columns_validate. cbn [nodeNodes].
  destruct (decide (Forall _ _)); [done|].
  unfold ret. rewrite makeSchema_columns_normalize, app_nil_l.
  exact Happly.
Qed.

End ColumnRepair.

Section ColumnCount.

Variable opts : Options.

Lemma padded_rows columns g (ns ns' : list Node) :
  Forall2 (λ n n', if decide (isRow opts n)
                   then paddedFrom opts g n n'
                        ∧ countCells opts n' = columns
                   else n' = n) ns ns' →
  (∀ r', r' ∈ ns' → isRow opts r' → countCells opts r' = columns)
  ∧ Forall2 (λ n n', if decide (isRow opts n) then paddedFrom opts g n n'
                     else n' = n) ns ns'.
Proof.
  induction 1 as [|n n' ns ns' Hn _ [IHrows IHall]].
  - split; [by intros r' ?%elem_of_nil|constructor].
  - split.
    + intros r' [->|Hr']%elem_of_cons Hrow; [|by apply IHrows].
      destruct (decide (isRow opts n)) as [_|Hnot]; [by destruct Hn|].
      by subst.
    + constructor; [|done]. destruct (decide (isRow opts n)); [|done].
      by destruct Hn.
Qed.

Lemma unchanged_rows columns g (ns : list Node) :
  Forall (λ r, countCells opts r = columns) (filter (isRow opts) ns) →
  Forall2 (λ n n', if decide (isRow opts n)
                   then paddedFrom opts g n n'
                        ∧ countCells opts n' = columns
                   else n' = n) ns ns.
Proof.
  intros Hall. apply Forall_Forall2_diag, Forall_forall. intros n Hn.
  destruct (decide (isRow opts n)) as [Hrow|]; [|done].
  split; [apply paddedFrom_refl|].
  rewrite Forall_forall in Hall. apply Hall. by apply list_elem_of_filter.
Qed.

(** C1. The column-count repair, of validateNode.js and of makeSchema.js,
    run on a table with pairwise distinct keys that the generator does not
    hand out again: afterwards every row of the table has exactly
    [max(1, max(c_1..c_n))] cells, and every row is the row it was with
    empty cells put before its cells, which are all kept, in their order;
    the other children of the table are untouched. *)
Theorem column_count_repair (rule : Rule) table g :
  rule ∈ [ ValidateNode.rowsContainRequiredColumns opts;
           MakeSchema.rowsContainRequiredColumns opts ] →
  nodeType table = Some (typeTable opts) →
  Host.wellKeyed table →
  Host.freshFor g table →
  ∃ table',
    repair (ValidateNode.toValidateNode rule) table g = Some table'
    ∧ (∀ r', r' ∈ nodeNodes table' → isRow opts r' →
             countCells opts r'
             = Z.max 1 (maxCells (countCells opts
                                    <$> filter (isRow opts)
                                          (nodeNodes table))))
    ∧ Forall2 (λ n n', if decide (isRow opts n) then paddedFrom opts g n n'
                       else n' = n)
              (nodeNodes table) (nodeNodes table').
Proof.
  intros Hrule Hty Hwk Hfresh.
  destruct table as [tk tty td ns|]; [|done]. injection Hty as ->.
  cbn [nodeNodes]. rewrite <- columnsOf_max.
  set (columns := ValidateNode.columnsOf opts (filter (isRow opts) ns)).
  assert (Forall2 (λ n n', if decide (isRow opts n)
                           then paddedFrom opts g n n'
                                ∧ countCells opts n' = columns
                           else n' = n)
                  ns (repairedNodes opts columns ns g)) as Hrepaired.
  { apply repairedNodes_padded. intros r Hr Hrow.
    apply columnsOf_ge_cells. by apply list_elem_of_filter. }
  rewrite !elem_of_cons, elem_of_nil in Hrule.
  destruct Hrule as [->|[->|[]]].
  - eexists. split; [by apply validateNode_columns_repair|].
    cbn [nodeNodes]. by apply padded_rows.
  - eexists. split; [by apply makeSchema_columns_repair|].
    fold columns. destruct (decide (Forall _ _)) as [Hall|_]; cbn [nodeNodes].
    + by apply padded_rows, unchanged_rows.
    + by apply padded_rows.
Qed.

End ColumnCount.

Section RowsOnly.

Variable opts : Options.

Lemma filter_complement_length {A} (P : A → Prop) `{!∀ x, Decision (P x)}
  (l : list A) :
  length (filter (λ x, ¬ P x) l) = length l ↔ filter P l = [].
Proof.
  induction l as [|x l IH]; [done|].
  pose proof (length_filter (λ x, ¬ P x) l) as Hle.
  destruct (decide (P x)) as [HP|HP].
  - rewrite (filter_cons_True P) by done.
    rewrite (filter_cons_False (λ x, ¬ P x)) by (intros Hn; by apply Hn).
    simpl. split; [lia|done].
  - rewrite (filter_cons_False P) by done.
    rewrite (filter_cons_True (λ x, ¬ P x)) by done.
    simpl. rewrite <- IH. split; lia.
Qed.

Lemma filter_complement_nil {A} (P : A → Prop) `{!∀ x, Decision (P x)}
  (l : list A) :
  filter (λ x, ¬ P x) l = [] → filter P l = l.
Proof.
  induction l as [|x l IH]; [done|].
  destruct (decide (P x)) as [HP|HP].
  - rewrite (filter_cons_False (λ x, ¬ P x)) by (intros Hn; by apply Hn).
    rewrite (filter_cons_True P) by done. intros Hn. by rewrite IH.
  - by rewrite (filter_cons_True (λ x, ¬ P x)).
Qed.

(** What the rows-only [validate] returns, in both files. *)
Lemma rows_validate_value table g :
  let value :=
    let invalids := filter (λ n, ¬ isRow opts n) (nodeNodes table) in
    if decide (filter (isRow opts) (nodeNodes table) = [])
    then Ok (Some (mkRowsDiagnosis invalids [emptyRowAt opts g]))
            (S (S (S g)))
    else if decide (invalids = []) then Ok None g
         else Ok (Some (mkRowsDiagnosis invalids [])) g in
  ValidateNode.tablesContainOnlyRows_validate opts table g = value
  ∧ MakeSchema.tablesContainOnlyRows_validate opts table g = value.
Proof.
  cbv zeta.
  change (MakeSchema.tablesContainOnlyRows_validate opts table g)
    with (ValidateNode.tablesContainOnlyRows_validate opts table g).
  match goal with |- ?a = ?b ∧ _ => assert (a = b) as H; [|by split] end.
  unfold ValidateNode.tablesContainOnlyRows_validate, bind.
  destruct (decide (length _ = length _)) as [Hlen|Hlen].
  - rewrite makeEmptyRow_at. unfold ret.
    rewrite decide_False by (by intros [_ ?]).
    apply filter_complement_length in Hlen. by rewrite decide_True.
  - rewrite filter_complement_length in Hlen. rewrite decide_False by done.
    unfold ret.
    destruct (decide (filter (λ n, ¬ isRow opts n) (nodeNodes table) = []))
      as [Hnil|Hinv].
    + by rewrite decide_True.
    + by rewrite decide_False by (by intros [? _]).
Qed.

(** The rows-only repair, run by the host. *)
Lemma rows_repair (rule : Rule) tk td (ns : list Node) g :
  let table := Block tk (typeTable opts) td ns in
  rule ∈ [ ValidateNode.tablesContainOnlyRows opts;
           MakeSchema.tablesContainOnlyRows opts ] →
  Host.wellKeyed table →
  repair (ValidateNode.toValidateNode rule) table g
  = Some (Block tk (typeTable opts) td
            ((if decide (filter (isRow opts) ns = [])
              then [emptyRowAt opts g] else [])
             ++ filter (isRow opts) ns)).
Proof.
  intros table Hrule Hwk. subst table.
  destruct (wellKeyed_children _ Hwk) as [Hnodup _]. cbn [nodeNodes] in Hnodup.
  pose proof (remove_children (isRow opts) tk (typeTable opts) td [] ns
                Hnodup) as Hremove.
  rewrite !app_nil_l in Hremove.
  assert (Host.applyChange
            (removalOps (filter (λ n, ¬ isRow opts n) ns))
            (Block tk (typeTable opts) td ns)
          = Some (Block tk (typeTable opts) td (filter (isRow opts) ns)))
    as Hremoved by (apply Hremove; by intros k _ ?%elem_of_nil).
  clear Hremove.
  destruct (rows_validate_value (Block tk (typeTable opts) td ns) g)
    as [Hv1 Hv2].
  assert (∀ (validate_ : Node → Eff (option RowsDiagnosis)) normalize_,
    validate_ (Block tk (typeTable opts) td ns) g
    = (let invalids := filter (λ n, ¬ isRow opts n) ns in
       if decide (filter (isRow opts) ns = [])
       then Ok (Some (mkRowsDiagnosis invalids [emptyRowAt opts g]))
               (S (S (S g)))
       else if decide (invalids = []) then Ok None g
            else Ok (Some (mkRowsDiagnosis invalids [])) g) →
    (∀ d g', normalize_ [] (Block tk (typeTable opts) td ns) d g'
             = Ok ([] ++ rowsOps (Block tk (typeTable opts) td ns) d) g') →
    repair (ValidateNode.toValidateNode
              (mkRule RowsDiagnosis
                 (λ node, bool_decide (nodeType node = Some (typeTable opts)))
                 validate_ normalize_))
      (Block tk (typeTable opts) td ns) g
    = Some (Block tk (typeTable opts) td
              ((if decide (filter (isRow opts) ns = [])
                then [emptyRowAt opts g] else [])
               ++ filter (isRow opts) ns))) as Hboth.
  { intros validate_ normalize_ Hv Hn.
    unfold repair, ValidateNode.toValidateNode, bind.
    cbn [match_ validate normalize].
    rewrite bool_decide_eq_true_2 by done. cbn [negb]. rewrite Hv.
    cbv zeta.
    destruct (decide (filter (isRow opts) ns = [])) as [Hno|Hsome].
    - unfold ret. rewrite Hn, app_nil_l. unfold rowsOps.
      cbn [rows_invalids rows_add]. rewrite applyChange_app, Hremoved.
      simpl. by rewrite decide_True.
    - destruct (decide (filter (λ n, ¬ isRow opts n) ns = [])) as [Hnil|Hinv].
      + unfold ret. by rewrite app_nil_l, filter_complement_nil.
      + unfold ret. rewrite Hn, app_nil_l. unfold rowsOps.
        cbn [rows_invalids rows_add]. by rewrite fmap_nil, app_nil_r. }
  rewrite !elem_of_cons, elem_of_nil in Hrule.
  destruct Hrule as [->|[->|[]]].
  - apply (Hboth (ValidateNode.tablesContainOnlyRows_validate opts)
             ValidateNode.tablesContainOnlyRows_normalize); [exact Hv1|].
    intros d g'. apply rows_normalize.
  - apply (Hboth (MakeSchema.tablesContainOnlyRows_validate opts)
             MakeSchema.tablesContainOnlyRows_normalize); [exact Hv2|].
    intros d g'. apply rows_normalize.
Qed.

(** C4. The rows-only rule, in both files. Its diagnosis lists for
    removal children of the table that are not rows, and only those; it
    schedules an insertion exactly when the table has no row, and then of
    one empty row. Run on a table with pairwise distinct keys, the repair
    leaves the rows the table had, behind the inserted row if any, so the
    table has a row afterwards. *)
Theorem rows_only_repair table g :
  nodeType table = Some (typeTable opts) →
  Host.wellKeyed table →
  let rows := filter (isRow opts) (nodeNodes table) in
  let synthetic := if decide (rows = []) then [emptyRowAt opts g] else [] in
  (∀ d g',
     ValidateNode.tablesContainOnlyRows_validate opts table g
       = Ok (Some d) g'
     ∨ MakeSchema.tablesContainOnlyRows_validate opts table g
       = Ok (Some d) g' →
     Forall (λ n, n ∈ nodeNodes table ∧ ¬ isRow opts n) (rows_invalids d)
     ∧ rows_add d = synthetic)
  ∧ (∀ rule,
       rule ∈ [ ValidateNode.tablesContainOnlyRows opts;
                MakeSchema.tablesContainOnlyRows opts ] →
       ∃ table',
         repair (ValidateNode.toValidateNode rule) table g = Some table'
         ∧ nodeNodes table' = synthetic ++ rows
         ∧ filter (isRow opts) (nodeNodes table') ≠ []).
Proof.
  intros Hty Hwk rows synthetic. split.
  - intros d g' Hd.
    destruct (rows_validate_value table g) as [Hv1 Hv2]. cbv zeta in Hv1, Hv2.
    assert (Ok (Some d) g'
            = (if decide (rows = [])
               then Ok (Some (mkRowsDiagnosis
                                (filter (λ n, ¬ isRow opts n)
                                        (nodeNodes table))
                                [emptyRowAt opts g])) (S (S (S g)))
               else if decide (filter (λ n, ¬ isRow opts n)
                                      (nodeNodes table) = [])
                    then Ok None g
                    else Ok (Some (mkRowsDiagnosis
                                     (filter (λ n, ¬ isRow opts n)
                                             (nodeNodes table)) [])) g))
      as Hvalue by (destruct Hd as [<-|<-]; [exact Hv1|exact Hv2]).
    clear Hv1 Hv2 Hd.
    assert (Forall (λ n, n ∈ nodeNodes table ∧ ¬ isRow opts n)
                   (filter (λ n, ¬ isRow opts n) (nodeNodes table)))
      as Hinvalids.
    { apply Forall_forall. intros n Hn.
      apply list_elem_of_filter in Hn as [? ?]. by split. }
    subst synthetic. destruct (decide (rows = [])).
    + by simplify_eq.
    + destruct (decide (filter (λ n, ¬ isRow opts n) (nodeNodes table) = []));
        by simplify_eq.
  - intros rule Hrule.
    destruct table as [tk tty td ns|]; [|done]. injection Hty as ->.
    eexists. split; [by apply rows_repair|]. cbn [nodeNodes].
    split; [done|]. subst synthetic rows. cbn [nodeNodes].
    destruct (decide (filter (isRow opts) ns = [])) as [Hno|Hsome].
    + simpl. rewrite filter_cons_True by done. done.
    + rewrite app_nil_l, list_filter_filter_l by done. done.
Qed.

End RowsOnly.

Lemma wellKeyed_decide (table : Node) :
  bool_decide (Host.wellKeyed table) = true → Host.wellKeyed table.
Proof. apply bool_decide_eq_true. Qed.

Lemma freshFor_decide g (table : Node) :
  bool_decide (Host.freshFor g table) = true → Host.freshFor g table.
Proof. apply bool_decide_eq_true. Qed.

Lemma column_count_repair_witness :
  ∃ table',
    repair (ValidateNode.toValidateNode
              (ValidateNode.rowsContainRequiredColumns Samples.opts))
      Samples.paddedTable 100 = Some table'
    ∧ (∀ r', r' ∈ nodeNodes table' → isRow Samples.opts r' →
             countCells Samples.opts r'
             = Z.max 1 (maxCells (countCells Samples.opts
                                    <$> filter (isRow Samples.opts)
                                          (nodeNodes Samples.paddedTable))))
    ∧ Forall2 (λ n n', if decide (isRow Samples.opts n)
                       then paddedFrom Samples.opts 100 n n'
                       else n' = n)
              (nodeNodes Samples.paddedTable) (nodeNodes table').
Proof.
  apply (column_count_repair Samples.opts
           (ValidateNode.rowsContainRequiredColumns Samples.opts)
           Samples.paddedTable 100).
  - apply list_elem_of_here.
  - reflexivity.
  - apply wellKeyed_decide. vm_compute. reflexivity.
  - apply freshFor_decide. vm_compute. reflexivity.
Defined.

Lemma rows_only_repair_witness :
  ∃ table',
    repair (ValidateNode.toValidateNode
              (MakeSchema.tablesContainOnlyRows Samples.opts))
      Samples.rowlessTable 100 = Some table'
    ∧ nodeNodes table' = [emptyRowAt Samples.opts 100]
    ∧ filter (isRow Samples.opts) (nodeNodes table') ≠ [].
Proof.
  destruct (rows_only_repair Samples.opts Samples.rowlessTable 100)
    as [_ Hrepair].
  - reflexivity.
  - apply wellKeyed_decide. vm_compute. reflexivity.
  - apply (Hrepair (MakeSchema.tablesContainOnlyRows Samples.opts)).
    apply list_elem_of_further, list_elem_of_here.
Defined.

Lemma removals_before_insertions_witness :
  ∃ ops g'',
    ValidateNode.rowsContainRequiredColumns_normalize Samples.opts []
      Samples.paddedTable
      [mkRowDiagnosis (Block 1 "table_row" ∅
                         [Samples.cell 2; Samples.paragraph 4])
                      [Samples.paragraph 4] 1]
      100
    = Ok ([] ++ ops) g''
    ∧ removalsFirst Samples.paddedTable ops.
Proof.
  apply (removals_before_insertions Samples.opts Samples.createAlign
           (ValidateNode.rowsContainRequiredColumns Samples.opts)
           Samples.paddedTable
           [mkRowDiagnosis (Block 1 "table_row" ∅
                              [Samples.cell 2; Samples.paragraph 4])
                           [Samples.paragraph 4] 1]
           [] 100 100).
  - apply list_elem_of_further, list_elem_of_here.
  - apply wellKeyed_decide. vm_compute. reflexivity.
  - vm_compute. reflexivity.
Defined.

(** The order matters to [removalsFirst]: the same two operations of that
    repair, the insertion first, do not satisfy it. *)
Example removalsFirst_rejects_late_removal :
  ¬ removalsFirst Samples.paddedTable
      [ InsertNodeByKey 1 0 (emptyCellAt Samples.opts 100) false;
        RemoveNodeByKey 4 false ].
Proof.
  intros H.
  apply (H [] [RemoveNodeByKey 4 false] 1 0 (emptyCellAt Samples.opts 100)
           false 4 false); [done|apply list_elem_of_here|].
  exists (Block 1 "table_row" ∅ [Samples.cell 2; Samples.paragraph 4]).
  split_and!; [|done|].
  - apply list_elem_of_further, list_elem_of_here.
  - apply list_elem_of_further, list_elem_of_here.
Qed.

(** ** Scenarios *)

Section Scenarios.

Import Samples.

(** Rows of 2, 3 and 1 cells: three columns; the first row gains one cell,
    the third two, the second loses its paragraph. *)
Example ragged_table_repair :
  repair (ValidateNode.validateNode opts createAlign) raggedTable 100
  = Some (Block 0 "table" {["align" := ["left"]]}
            [ Block 1 "table_row" ∅
                [emptyCellAt opts 100; cell 2; cell 4];
              Block 6 "table_row" ∅ [cell 7; cell 11; cell 13];
              Block 15 "table_row" ∅
                [emptyCellAt opts 104; emptyCellAt opts 102; cell 16] ]).
Proof. vm_compute. reflexivity. Qed.

(** A paragraph before a row: the rows-only rule removes the paragraph
    and inserts nothing. *)
Example mixed_table_repair :
  repair (ValidateNode.toValidateNode (MakeSchema.tablesContainOnlyRows opts))
    mixedTable 100
  = Some (Block 0 "table" ∅ [Block 3 "table_row" ∅ [cell 4]]).
Proof. vm_compute. reflexivity. Qed.

(** Two paragraphs and no row: both go, one row of one empty cell comes. *)
Example rowless_table_repair :
  repair (ValidateNode.toValidateNode (MakeSchema.tablesContainOnlyRows opts))
    rowlessTable 100
  = Some (Block 0 "table" ∅ [emptyRowAt opts 100]).
Proof. vm_compute. reflexivity. Qed.

(** The validator of validateNode.js leaves the same table alone. *)
Example rowless_table_validateNode :
  repair (ValidateNode.validateNode opts createAlign) rowlessTable 100
  = Some rowlessTable.
Proof. vm_compute. reflexivity. Qed.

(** Two columns and no [align] entry. *)
Example unaligned_table_repair :
  repair (ValidateNode.validateNode opts createAlign) unalignedTable 100
  = Some (Block 0 "table" {["align" := ["none"; "none"]]}
            (nodeNodes unalignedTable)).
Proof. vm_compute. reflexivity. Qed.

(** The table without children stops the validator of validateNode.js. *)
Example empty_table_validateNode :
  ValidateNode.validateNode opts createAlign emptyTable 100
  = Throw (TypeError "Cannot read property 'type' of undefined").
Proof. reflexivity. Qed.

End Scenarios.

(** * Further properties *)

(** ** What the validator returns *)

Section Validator.

Variable opts : Options.
Variable createAlign : nat → list string → list string.

(** The validator of validateNode.js on a table: the column-count repair
    when a row does not conform, else what the alignment rule says. *)
Lemma validateNode_table table g :
  nodeType table = Some (typeTable opts) →
  ValidateNode.validateNode opts createAlign table g
  = match ValidateNode.rowsContainRequiredColumns_validate opts table g with
    | Ok (Some d) g' =>
        Ok (Some (λ change,
                    ValidateNode.rowsContainRequiredColumns_normalize
                      opts change table d)) g'
    | Ok None g' =>
        match ValidateNode.tableContainAlignData_validate opts table g' with
        | Ok (Some d) g'' =>
            Ok (Some (λ change,
                        ValidateNode.tableContainAlignData_normalize
                          createAlign change table d)) g''
        | Ok None g'' => Ok None g''
        | Throw e => Throw e
        end
    | Throw e => Throw e
    end.
Proof.
  intros Hty.
  assert (ValidateNode.isTable opts table = true) as Hm
    by (by apply bool_decide_eq_true).
  unfold ValidateNode.validateNode, ValidateNode.validateTableNode,
    ValidateNode.rules.
  rewrite !fmap_cons, fmap_nil.
  destruct (ValidateNode.rowsContainRequiredColumns_validate opts table g)
    as [[d|] g'|e] eqn:Hcol.
  - cbn [ValidateNode.findChanger]. unfold bind at 1.
    by rewrite (toValidateNode_defect
                  (ValidateNode.rowsContainRequiredColumns opts)
                  table d g g' Hm Hcol).
  - rewrite (findChanger_skip _ _ _ g g')
      by (by apply (toValidateNode_valid
                      (ValidateNode.rowsContainRequiredColumns opts))).
    cbn [ValidateNode.findChanger]. unfold bind at 1.
    destruct (ValidateNode.tableContainAlignData_validate opts table g')
      as [[d|] g''|e] eqn:Halign.
    + by rewrite (toValidateNode_defect
                    (ValidateNode.tableContainAlignData opts createAlign)
                    table d g' g'' Hm Halign).
    + by rewrite (toValidateNode_valid
                    (ValidateNode.tableContainAlignData opts createAlign)
                    table g' g'' Hm Halign).
    + by rewrite (toValidateNode_throws
                    (ValidateNode.tableContainAlignData opts createAlign)
                    table e g' Hm Halign).
  - by rewrite validateNode_columns_validate in Hcol.
Qed.

Lemma validateNode_other node g :
  nodeType node ≠ Some (typeTable opts) →
  ValidateNode.validateNode opts createAlign node g = Ok None g.
Proof.
  intros Hty.
  assert (ValidateNode.isTable opts node = false) as Hm
    by (by apply bool_decide_eq_false).
  pose proof (findChanger_noDefect_app node
                (ValidateNode.rules opts createAlign) [] g g) as Hrun.
  rewrite app_nil_r in Hrun. apply Hrun.
  apply noDefect_unmatched; [exact Hm|].
  apply noDefect_unmatched; [exact Hm|constructor].
Qed.

Lemma align_validate_nonempty table g :
  nodeNodes table ≠ [] →
  ∃ r, ValidateNode.tableContainAlignData_validate opts table g = Ok r g.
Proof.
  destruct (nodeNodes table) as [|first rest] eqn:Hnodes; [done|]. intros _.
  rewrite (align_validate_value opts table first rest g Hnodes). eauto.
Qed.

(** X1. Over the nodes of the data model, whose [align] entry, where
    there is one, is a sequence of tags ([align: string[]] in the source):
    the validator of validateNode.js throws exactly on the nodes of the
    table type that have no children; on every other such node it
    returns, a repair or [undefined]. *)
Theorem validateNode_throws_iff node g :
  (∃ e, ValidateNode.validateNode opts createAlign node g = Throw e)
  ↔ nodeType node = Some (typeTable opts) ∧ nodeNodes node = [].
Proof.
  split.
  - intros [e He].
    destruct (decide (nodeType node = Some (typeTable opts))) as [Hty|Hty].
    + split; [done|]. rewrite (validateNode_table node g Hty) in He.
      rewrite validateNode_columns_validate in He.
      destruct (nodeNodes node) as [|first rest] eqn:Hnodes; [done|].
      exfalso.
      destruct (align_validate_nonempty node g) as [r Hr];
        [by rewrite Hnodes|].
      cbv zeta in He.
      destruct (filterBoolean _); [|done].
      rewrite Hr in He. by destruct r.
    + by rewrite (validateNode_other node g Hty) in He.
  - intros [Hty Hnodes]. rewrite (validateNode_table node g Hty).
    rewrite validateNode_columns_validate, Hnodes. simpl.
    unfold ValidateNode.tableContainAlignData_validate. rewrite Hnodes.
    simpl. eauto.
Qed.

(** X2. No rule of the two files has anything to say about a node that
    is not of the table type, whatever its children are: the validator
    made of any of them returns [undefined] without running its
    [validate], and so does the validator of validateNode.js. *)
Theorem validateNode_ignores_other_nodes node g :
  nodeType node ≠ Some (typeTable opts) →
  (∀ rule, rule ∈ allRules opts createAlign →
           ValidateNode.toValidateNode rule node g = Ok None g)
  ∧ ValidateNode.validateNode opts createAlign node g = Ok None g.
Proof.
  intros Hty. split; [|by apply validateNode_other].
  intros rule Hrule. apply toValidateNode_unmatched.
  unfold allRules, ValidateNode.rules, MakeSchema.makeSchema in Hrule.
  rewrite elem_of_cons, elem_of_app, !elem_of_cons, !elem_of_nil in Hrule.
  destruct Hrule as [->|[[->|[->|[]]]|[->|[->|[]]]]];
    by apply bool_decide_eq_false.
Qed.

End Validator.

(** ** The column-count repair, once more *)

Section ColumnFixpoint.

Variable opts : Options.

Lemma columns_foldl_le (f : Node → Z) rows (a c : Z) :
  (a ≤ c)%Z →
  (∀ r, r ∈ rows → (f r ≤ c)%Z) →
  (foldl (λ count row, Z.max count (f row)) a rows ≤ c)%Z.
Proof.
  revert a. induction rows as [|x rows IH]; intros a Ha Hrows; [done|].
  simpl. apply IH.
  - apply Z.max_lub; [done|]. apply Hrows, list_elem_of_here.
  - intros r Hr. by apply Hrows, list_elem_of_further.
Qed.

(** Rows that all have [c] cells, [c] at least one, make [c] columns. *)
Lemma columnsOf_uniform rows (c : Z) :
  (1 ≤ c)%Z →
  Forall (λ r, countCells opts r = c) rows →
  Forall (λ r, countCells opts r = ValidateNode.columnsOf opts rows) rows.
Proof.
  intros Hc Hall. apply Forall_forall. intros r Hr.
  rewrite Forall_forall in Hall.
  pose proof (columnsOf_ge_cells opts rows r Hr) as Hge.
  assert (ValidateNode.columnsOf opts rows ≤ c)%Z as Hle.
  { apply columns_foldl_le; [done|]. intros r' Hr'.
    by rewrite (Hall r' Hr'). }
  rewrite (Hall r Hr) in *. by apply Z.le_antisymm.
Qed.

Lemma filter_not_all {A} (P : A → Prop) `{!∀ x, Decision (P x)}
  (l : list A) :
  Forall P l → filter (λ x, ¬ P x) l = [].
Proof.
  intros Hall. apply filter_none. eapply Forall_impl; [exact Hall|].
  intros x Hx Hn. by apply Hn.
Qed.

Lemma repairedRow_only_cells columns g r :
  filter (λ n, ¬ isCell opts n) (nodeNodes (repairedRow opts columns g r))
  = filter (λ n, ¬ isCell opts n)
           (if r is Block _ _ _ _ then [] else nodeNodes r).
Proof.
  destruct r as [rk rty rd rns|]; [|done]. cbn [repairedRow nodeNodes].
  apply filter_not_all, Forall_app. split.
  - eapply Forall_impl; [apply paddingCells_cells|].
    by intros c (g' & -> & _).
  - apply Forall_forall. intros c Hc.
    by apply list_elem_of_filter in Hc as [? _].
Qed.

(** After the repair every row holds cells only. *)
Lemma repairedNodes_only_cells columns (ns : list Node) g n' :
  n' ∈ repairedNodes opts columns ns g →
  isRow opts n' →
  filter (λ n, ¬ isCell opts n) (nodeNodes n') = [].
Proof.
  revert g. induction ns as [|x ns IH]; intros g; [by intros ?%elem_of_nil|].
  cbn [repairedNodes].
  destruct (decide (isRow opts x
                    ∧ is_Some (ValidateNode.diagnoseRow opts columns x)))
    as [[Hrow _]|Hskip].
  - intros [->|Hin]%elem_of_cons Hn'; [|by eapply IH].
    rewrite repairedRow_only_cells. by destruct x.
  - intros [->|Hin]%elem_of_cons Hn'; [|by eapply IH].
    destruct (ValidateNode.diagnoseRow opts columns x) eqn:He.
    + exfalso. apply Hskip. by split.
    + by apply diagnoseRow_None in He as [He _].
Qed.

(** The children that are no rows, and the rows that conform, come out
    of the repair as they went in. *)
Lemma repairedNodes_untouched columns (ns : list Node) g :
  Forall2 (λ n n',
             (isRow opts n →
              filter (λ c, ¬ isCell opts c) (nodeNodes n) = []
              ∧ countCells opts n = columns) →
             n' = n)
          ns (repairedNodes opts columns ns g).
Proof.
  revert g. induction ns as [|x ns IH]; intros g; [constructor|].
  cbn [repairedNodes].
  destruct (decide (isRow opts x
                    ∧ is_Some (ValidateNode.diagnoseRow opts columns x)))
    as [[Hrow [e He]]|Hskip]; constructor; try done; try apply IH.
  intros Hconf. apply Hconf, diagnoseRow_None in Hrow. congruence.
Qed.

Lemma repairedNodes_settled columns (ns : list Node) g :
  (1 ≤ columns)%Z →
  (∀ r, r ∈ ns → isRow opts r → (countCells opts r ≤ columns)%Z) →
  let rows' := filter (isRow opts) (repairedNodes opts columns ns g) in
  Forall (λ r, filter (λ n, ¬ isCell opts n) (nodeNodes r) = []
               ∧ countCells opts r = ValidateNode.columnsOf opts rows')
         rows'.
Proof.
  intros Hc Hle rows'.
  destruct (padded_rows opts columns g ns _
              (repairedNodes_padded opts columns ns g Hle)) as [Hcount _].
  assert (Forall (λ r, countCells opts r = columns) rows') as Huniform.
  { apply Forall_forall. intros r Hr.
    apply list_elem_of_filter in Hr as [Hrow Hr]. by apply Hcount. }
  apply (columnsOf_uniform _ _ Hc) in Huniform.
  rewrite Forall_forall in Huniform. apply Forall_forall. intros r Hr.
  split; [|by apply Huniform].
  apply list_elem_of_filter in Hr as [Hrow Hr].
  by eapply repairedNodes_only_cells.
Qed.

(** X3. The column-count repair settles in one step: on the table it
    leaves, [validate] of the rule that made it returns [null]. For
    validateNode.js and for makeSchema.js, on a table with pairwise
    distinct keys that the generator does not hand out again. *)
Theorem column_repair_settles (rule : Rule) table g g' :
  rule ∈ [ ValidateNode.rowsContainRequiredColumns opts;
           MakeSchema.rowsContainRequiredColumns opts ] →
  nodeType table = Some (typeTable opts) →
  Host.wellKeyed table →
  Host.freshFor g table →
  ∃ table',
    repair (ValidateNode.toValidateNode rule) table g = Some table'
    ∧ validate rule table' g' = Ok None g'.
Proof.
  intros Hrule Hty Hwk Hfresh.
  destruct table as [tk tty td ns|]; [|done]. injection Hty as ->.
  set (columns := ValidateNode.columnsOf opts (filter (isRow opts) ns)).
  pose proof (repairedNodes_settled columns ns g
                (columnsOf_ge_1 opts _)) as Hsettled.
  cbv zeta in Hsettled.
  assert (∀ r, r ∈ ns → isRow opts r → (countCells opts r ≤ columns)%Z)
    as Hle.
  { intros r Hr Hrow. apply columnsOf_ge_cells. by apply list_elem_of_filter. }
  specialize (Hsettled Hle).
  rewrite !elem_of_cons, elem_of_nil in Hrule.
  destruct Hrule as [->|[->|[]]].
  - eexists. split; [by apply validateNode_columns_repair|].
    by apply validateNode_columns_null_iff.
  - eexists. split; [by apply makeSchema_columns_repair|].
    fold columns. cbn [validate MakeSchema.rowsContainRequiredColumns].
    rewrite makeSchema_columns_validate.
    destruct (decide (Forall _ (filter (isRow opts) ns))) as [Hall|_];
      cbn [nodeNodes]; cbv zeta.
    + by rewrite decide_True.
    + rewrite decide_True; [done|].
      eapply Forall_impl; [exact Hsettled|]. by intros r [_ ?].
Qed.

(** X4. The column-count repair touches the rows that do not conform and
    nothing else: the table keeps its key, type, data and number of
    children, and a child that is not a row, or is a row of only cells,
    [columns] of them, is at its place unchanged. *)
Theorem column_repair_keeps_conforming (rule : Rule) table g :
  rule ∈ [ ValidateNode.rowsContainRequiredColumns opts;
           MakeSchema.rowsContainRequiredColumns opts ] →
  nodeType table = Some (typeTable opts) →
  Host.wellKeyed table →
  Host.freshFor g table →
  let columns :=
    ValidateNode.columnsOf opts (filter (isRow opts) (nodeNodes table)) in
  ∃ table',
    repair (ValidateNode.toValidateNode rule) table g = Some table'
    ∧ nodeKey table' = nodeKey table
    ∧ nodeType table' = nodeType table
    ∧ nodeData table' = nodeData table
    ∧ length (nodeNodes table') = length (nodeNodes table)
    ∧ ∀ i n,
        nodeNodes table !! i = Some n →
        (isRow opts n →
         filter (λ c, ¬ isCell opts c) (nodeNodes n) = []
         ∧ countCells opts n = columns) →
        nodeNodes table' !! i = Some n.
Proof.
  intros Hrule Hty Hwk Hfresh columns.
  destruct table as [tk tty td ns|]; [|done]. injection Hty as ->.
  cbn [nodeNodes] in columns.
  pose proof (repairedNodes_untouched columns ns g) as Hsame.
  assert (length (repairedNodes opts columns ns g) = length ns
          ∧ ∀ i n,
              ns !! i = Some n →
              (isRow opts n →
               filter (λ c, ¬ isCell opts c) (nodeNodes n) = []
               ∧ countCells opts n = columns) →
              repairedNodes opts columns ns g !! i = Some n) as [Hlen Hkeep].
  { split; [symmetry; by eapply Forall2_length|].
    intros i n Hi Hconf.
    destruct (Forall2_lookup_l _ _ _ i n Hsame Hi) as (n' & Hi' & Hn').
    by rewrite Hi', (Hn' Hconf). }
  rewrite !elem_of_cons, elem_of_nil in Hrule.
  destruct Hrule as [->|[->|[]]].
  - eexists. split; [by apply validateNode_columns_repair|]. by split_and!.
  - eexists. split; [by apply makeSchema_columns_repair|].
    fold columns. destruct (decide (Forall _ _)); by split_and!.
Qed.

End ColumnFixpoint.

(** ** The rows-only and alignment repairs *)

Section OtherRepairs.

Variable opts : Options.
Variable createAlign : nat → list string → list string.

(** X5. The rows-only repair settles in one step, in both files: the
    table it leaves has children, all of them rows, and [validate] of the
    rule returns [null] on it. *)
Theorem rows_repair_settles (rule : Rule) table g g' :
  rule ∈ [ ValidateNode.tablesContainOnlyRows opts;
           MakeSchema.tablesContainOnlyRows opts ] →
  nodeType table = Some (typeTable opts) →
  Host.wellKeyed table →
  ∃ table',
    repair (ValidateNode.toValidateNode rule) table g = Some table'
    ∧ nodeNodes table' ≠ []
    ∧ Forall (isRow opts) (nodeNodes table')
    ∧ validate rule table' g' = Ok None g'.
Proof.
  intros Hrule Hty Hwk.
  destruct table as [tk tty td ns|]; [|done]. injection Hty as ->.
  eexists. split; [by apply rows_repair|]. cbn [nodeNodes].
  set (ns' := (if decide (filter (isRow opts) ns = [])
               then [emptyRowAt opts g] else [])
              ++ filter (isRow opts) ns).
  assert (ns' ≠ []) as Hne.
  { subst ns'. destruct (decide (filter (isRow opts) ns = [])); [done|].
    by rewrite app_nil_l. }
  assert (Forall (isRow opts) ns') as Hrows.
  { subst ns'. apply Forall_app. split.
    - destruct (decide (filter (isRow opts) ns = [])); by repeat constructor.
    - apply Forall_forall. intros r Hr.
      by apply list_elem_of_filter in Hr as [? _]. }
  split_and!; [done..|].
  destruct (rows_validate_value opts (Block tk (typeTable opts) td ns') g')
    as [Hv1 Hv2].
  cbv zeta in Hv1, Hv2. cbn [nodeNodes] in Hv1, Hv2.
  rewrite (filter_all _ _ Hrows) in Hv1, Hv2.
  rewrite (filter_not_all _ _ Hrows) in Hv1, Hv2.
  rewrite decide_False in Hv1, Hv2 by done.
  rewrite decide_True in Hv1, Hv2 by done.
  rewrite !elem_of_cons, elem_of_nil in Hrule.
  by destruct Hrule as [->|[->|[]]].
Qed.

(** The alignment repair, run by the host. *)
Lemma align_repair tk td (first : Node) (rest : list Node) g :
  let table := Block tk (typeTable opts) td (first :: rest) in
  let given := default [] (td !! "align") in
  let width := length (nodeNodes first) in
  repair (ValidateNode.toValidateNode
            (ValidateNode.tableContainAlignData opts createAlign)) table g
  = Some (if decide (isRow opts first ∧ length given ≠ width)
          then Block tk (typeTable opts)
                 (<["align" := createAlign width given]> td)
                 (first :: rest)
          else table).
Proof.
  intros table given width. subst table.
  unfold repair, ValidateNode.toValidateNode, bind.
  cbn [match_ validate normalize ValidateNode.tableContainAlignData].
  unfold ValidateNode.isTable. rewrite bool_decide_eq_true_2 by done.
  cbn [negb].
  rewrite (align_validate_value opts
             (Block tk (typeTable opts) td (first :: rest)) first rest g
             eq_refl).
  cbn [nodeData]. fold given. fold width.
  destruct (decide (nodeType first ≠ Some (typeRow opts))) as [Hty|Hty].
  - rewrite decide_False; [done|]. by intros [? _].
  - destruct (decide (length given = width)) as [Hlen|Hlen].
    + rewrite decide_False; [done|]. by intros [_ ?].
    + rewrite decide_True.
      * unfold ret, ValidateNode.tableContainAlignData_normalize, ret.
        simpl. by rewrite decide_True.
      * split; [|done]. by destruct (decide (isRow opts first)).
Qed.

(** The alignment rule has nothing to say about the table that its
    repair leaves, if [createAlign] returns as many entries as asked. *)
Lemma align_repair_valid tk td (first : Node) (rest : list Node) g :
  let given := default [] (td !! "align") in
  let width := length (nodeNodes first) in
  (isRow opts first → length (createAlign width given) = width) →
  ValidateNode.tableContainAlignData_validate opts
    (if decide (isRow opts first ∧ length given ≠ width)
     then Block tk (typeTable opts)
            (<["align" := createAlign width given]> td) (first :: rest)
     else Block tk (typeTable opts) td (first :: rest)) g
  = Ok None g.
Proof.
  intros given width Hlen.
  destruct (decide (isRow opts first ∧ length given ≠ width))
    as [[Hrow Hne]|Hok].
  - rewrite (align_validate_value opts
               (Block tk (typeTable opts)
                  (<["align" := createAlign width given]> td)
                  (first :: rest)) first rest g eq_refl).
    cbn [nodeData]. rewrite lookup_insert_eq. cbn [default].
    fold width. rewrite decide_False by (intros H; by apply H).
    by rewrite decide_True by (by apply Hlen).
  - rewrite (align_validate_value opts
               (Block tk (typeTable opts) td (first :: rest)) first rest g
               eq_refl).
    cbn [nodeData]. fold given. fold width.
    destruct (decide (nodeType first ≠ Some (typeRow opts))) as [|Hrow];
      [done|].
    destruct (decide (length given = width)) as [|Hne]; [done|].
    exfalso. apply Hok. split; [|done].
    by destruct (decide (isRow opts first)).
Qed.


End OtherRepairs.

(** ** The validator run to its end *)

Section Convergence.

Variable opts : Options.
Variable createAlign : nat → list string → list string.

(** The repair of the validator is the column-count repair when that rule
    reports a defect, else the alignment repair. *)
Lemma repair_validateNode table g :
  nodeType table = Some (typeTable opts) →
  repair (ValidateNode.validateNode opts createAlign) table g
  = match ValidateNode.rowsContainRequiredColumns_validate opts table g with
    | Ok (Some _) _ =>
        repair (ValidateNode.toValidateNode
                  (ValidateNode.rowsContainRequiredColumns opts)) table g
    | _ =>
        repair (ValidateNode.toValidateNode
                  (ValidateNode.tableContainAlignData opts createAlign))
          table g
    end.
Proof.
  intros Hty.
  assert (ValidateNode.isTable opts table = true) as Hm
    by (by apply bool_decide_eq_true).
  unfold repair at 1. rewrite (validateNode_table opts createAlign table g Hty).
  destruct (ValidateNode.rowsContainRequiredColumns_validate opts table g)
    as [[d|] g'|e] eqn:Hcol.
  - unfold repair.
    by rewrite (toValidateNode_defect
                  (ValidateNode.rowsContainRequiredColumns opts)
                  table d g g' Hm Hcol).
  - rewrite validateNode_columns_validate in Hcol.
    assert (g' = g) as -> by (by injection Hcol).
    unfold repair.
    destruct (ValidateNode.tableContainAlignData_validate opts table g)
      as [[d|] g''|e] eqn:Halign.
    + by rewrite (toValidateNode_defect
                    (ValidateNode.tableContainAlignData opts createAlign)
                    table d g g'' Hm Halign).
    + by rewrite (toValidateNode_valid
                    (ValidateNode.tableContainAlignData opts createAlign)
                    table g g'' Hm Halign).
    + by rewrite (toValidateNode_throws
                    (ValidateNode.tableContainAlignData opts createAlign)
                    table e g Hm Halign).
  - by rewrite validateNode_columns_validate in Hcol.
Qed.

(** The column-count diagnosis reads the children of the table only. *)
Lemma columns_validate_children table table' g g' :
  nodeNodes table' = nodeNodes table →
  ValidateNode.rowsContainRequiredColumns_validate opts table g = Ok None g →
  ValidateNode.rowsContainRequiredColumns_validate opts table' g'
  = Ok None g'.
Proof.
  intros Hnodes. rewrite !validateNode_columns_validate, Hnodes. cbv zeta.
  by destruct (filterBoolean _).
Qed.

Lemma only_cells_length (r : Node) (c : Z) :
  filter (λ n, ¬ isCell opts n) (nodeNodes r) = [] →
  countCells opts r = c →
  length (nodeNodes r) = Z.to_nat c.
Proof.
  intros Hcells <-. unfold countCells.
  rewrite (filter_complement_nil _ _ Hcells). lia.
Qed.

(** A table whose rows conform needs the alignment repair at most. *)
Lemma settled_table_converges tk td (first : Node) (rest : list Node) :
  let table := Block tk (typeTable opts) td (first :: rest) in
  let given := default [] (td !! "align") in
  let width := length (nodeNodes first) in
  (∀ g, ValidateNode.rowsContainRequiredColumns_validate opts table g
        = Ok None g) →
  (isRow opts first → length (createAlign width given) = width) →
  ∃ table',
    (∀ g, repair (ValidateNode.validateNode opts createAlign) table g
          = Some table')
    ∧ (∀ g, repair (ValidateNode.validateNode opts createAlign) table' g
            = Some table')
    ∧ (∀ g, ValidateNode.validateNode opts createAlign table' g = Ok None g).
Proof.
  intros table given width Hcol Hlen.
  set (table' :=
         if decide (isRow opts first ∧ length given ≠ width)
         then Block tk (typeTable opts)
                (<["align" := createAlign width given]> td) (first :: rest)
         else table).
  assert (nodeType table' = Some (typeTable opts)) as Hty'
    by (subst table'; by destruct (decide _)).
  assert (nodeNodes table' = nodeNodes table) as Hnodes'
    by (subst table'; by destruct (decide _)).
  assert (∀ g, ValidateNode.validateNode opts createAlign table' g
               = Ok None g) as Hdone.
  { intros g. rewrite (validateNode_table opts createAlign table' g Hty').
    rewrite (columns_validate_children table table' g g Hnodes' (Hcol g)).
    pose proof (align_repair_valid opts createAlign tk td first rest g Hlen)
      as Hvalid.
    cbv zeta in Hvalid. subst table' table given width. by rewrite Hvalid. }
  exists table'. split_and!; [|intros g; unfold repair; by rewrite Hdone|done].
  intros g. rewrite repair_validateNode by done. rewrite Hcol.
  apply align_repair.
Qed.

(** X7. Run again and again, the validator of validateNode.js is done
    after two repairs at most: on a table with at least one child, with
    pairwise distinct keys that the generator does not hand out again,
    and with a [createAlign] that returns [columns] entries for the
    table's [align], the first repair succeeds, so does the second, and
    on the table that leaves the validator returns no repair. *)
Theorem validateNode_converges table g :
  nodeType table = Some (typeTable opts) →
  nodeNodes table ≠ [] →
  Host.wellKeyed table →
  Host.freshFor g table →
  let given := default [] (nodeData table !! "align") in
  let width :=
    Z.to_nat (ValidateNode.columnsOf opts
                (filter (isRow opts) (nodeNodes table))) in
  length (createAlign width given) = width →
  ∃ table1 table2,
    repair (ValidateNode.validateNode opts createAlign) table g
    = Some table1
    ∧ (∀ g1, repair (ValidateNode.validateNode opts createAlign) table1 g1
             = Some table2)
    ∧ (∀ g2, ValidateNode.validateNode opts createAlign table2 g2
             = Ok None g2).
Proof.
  intros Hty Hne Hwk Hfresh given width Hlen.
  destruct table as [tk tty td ns|]; [|done]. injection Hty as ->.
  cbn [nodeNodes nodeData] in *.
  set (columns := ValidateNode.columnsOf opts (filter (isRow opts) ns)) in *.
  assert (∀ r, r ∈ ns → isRow opts r → (countCells opts r ≤ columns)%Z)
    as Hle.
  { intros r Hr Hrow. apply columnsOf_ge_cells. by apply list_elem_of_filter. }
  rewrite repair_validateNode by done.
  destruct (ValidateNode.rowsContainRequiredColumns_validate opts
              (Block tk (typeTable opts) td ns) g) as [[d|] g'|e] eqn:Hcol.
  - (* the rows are repaired first *)
    rewrite (validateNode_columns_repair opts tk td ns g Hwk Hfresh).
    fold columns.
    pose proof (repairedNodes_padded opts columns ns g Hle) as Hpadded.
    pose proof (repairedNodes_settled opts columns ns g
                  (columnsOf_ge_1 opts _) Hle) as Hsettled.
    cbv zeta in Hsettled.
    destruct (repairedNodes opts columns ns g) as [|first rest] eqn:Hns'.
    { apply Forall2_length in Hpadded. by destruct ns. }
    destruct (settled_table_converges tk td first rest)
      as (table2 & Hrepair & _ & Hdone).
    + intros g1. by apply validateNode_columns_null_iff.
    + intros Hrow. fold given.
      destruct (padded_rows opts columns g ns _ Hpadded) as [Hcount _].
      assert (length (nodeNodes first) = width) as ->; [|done].
      apply only_cells_length.
      * rewrite <- Hns' in Hsettled.
        eapply (repairedNodes_only_cells opts columns ns g);
          [rewrite Hns'; apply list_elem_of_here|done].
      * apply Hcount; [apply list_elem_of_here|done].
    + eexists _, table2. by split_and!.
  - (* the rows conform already *)
    rewrite validateNode_columns_validate in Hcol. cbn [nodeNodes] in Hcol.
    assert (∀ g1, ValidateNode.rowsContainRequiredColumns_validate opts
                    (Block tk (typeTable opts) td ns) g1 = Ok None g1)
      as Hnull.
    { intros g1. rewrite validateNode_columns_validate. cbn [nodeNodes].
      cbv zeta in *. by destruct (filterBoolean _). }
    destruct ns as [|first rest]; [done|].
    destruct (settled_table_converges tk td first rest)
      as (table1 & Hrepair & Hagain & Hdone); [done| |].
    + intros Hrow. fold given.
      pose proof (proj1 (validateNode_columns_null_iff opts _ g) (Hnull g))
        as Hrows.
      cbn [nodeNodes] in Hrows. fold columns in Hrows.
      rewrite Forall_forall in Hrows.
      destruct (Hrows first) as [Hcells Hcount].
      { apply list_elem_of_filter. split; [done|apply list_elem_of_here]. }
      assert (length (nodeNodes first) = width) as ->; [|done].
      by apply only_cells_length.
    + exists table1, table1. split_and!; [|done..].
      rewrite <- (Hrepair g). rewrite repair_validateNode by done.
      by rewrite Hnull.
  - by rewrite validateNode_columns_validate in Hcol.
Qed.

End Convergence.

(** ** Keys through the repairs *)

Section KeysKept.

Variable opts : Options.

Lemma repair_repairGen validator doc g :
  repair validator doc g = fst <$> repairGen validator doc g.
Proof.
  unfold repair, repairGen.
  destruct (validator doc g) as [[normalizer|] g'|e]; [|done..].
  destruct (normalizer [] g') as [change g''|e]; [|done].
  by destruct (Host.applyChange change doc).
Qed.

(** The entries of the column-count diagnosis for the children [ns]. *)
Lemma columnGen_mono (d : list RowDiagnosis) g : (g ≤ columnGen d g)%nat.
Proof.
  revert g. induction d as [|e d IH]; intros g; simpl; [done|].
  etrans; [|apply IH]. lia.
Qed.

Lemma paddingCells_keys_range n g k :
  k ∈ paddingCells opts n g ≫= Host.keys → (g ≤ k < g + 2 * n)%nat.
Proof.
  revert g. induction n as [|n IH]; intros g; simpl.
  - by intros ?%elem_of_nil.
  - rewrite bind_app, elem_of_app, bind_singleton. intros [Hin|Hin].
    + apply IH in Hin. lia.
    + simpl in Hin. rewrite !elem_of_cons, elem_of_nil in Hin. lia.
Qed.

Lemma paddingCells_keys_NoDup n g :
  NoDup (paddingCells opts n g ≫= Host.keys).
Proof.
  revert g. induction n as [|n IH]; intros g; simpl; [constructor|].
  rewrite bind_app, bind_singleton. apply NoDup_app. split_and!.
  - apply IH.
  - intros k Hk%paddingCells_keys_range. simpl.
    rewrite !elem_of_cons, elem_of_nil. lia.
  - simpl. repeat constructor; rewrite ?elem_of_cons, ?elem_of_nil; lia.
Qed.

Lemma keys_filter_NoDup (P : Node → Prop) `{!∀ x, Decision (P x)}
  (ns : list Node) :
  NoDup (ns ≫= Host.keys) → NoDup (filter P ns ≫= Host.keys).
Proof.
  intros Hnodup. apply (sublist_NoDup _ _ Hnodup).
  apply bind_sublist, sublist_filter.
Qed.

Lemma repairedRow_keys_range columns g r k :
  k ∈ Host.keys (repairedRow opts columns g r) →
  k ∈ Host.keys r
  ∨ (g ≤ k < g + 2 * rangeSize (columns - countCells opts r))%nat.
Proof.
  destruct r as [rk rty rd rns|]; simpl; [|by left].
  rewrite !elem_of_cons, bind_app, elem_of_app.
  intros [->|[Hin|Hin]].
  - left. by left.
  - right. by apply paddingCells_keys_range in Hin.
  - left. right. by eapply keys_filter.
Qed.

Lemma repairedRow_keys_NoDup columns g r :
  NoDup (Host.keys r) →
  (∀ k, k ∈ Host.keys r → (k < g)%nat) →
  NoDup (Host.keys (repairedRow opts columns g r)).
Proof.
  destruct r as [rk rty rd rns|]; [|done]. cbn [repairedRow].
  rewrite !keys_Block, !NoDup_cons. intros [Hrk Hrns] Hold. split.
  - rewrite bind_app, not_elem_of_app. split.
    + intros Hin%paddingCells_keys_range.
      specialize (Hold rk (list_elem_of_here _ _)). lia.
    + intros Hin. by apply Hrk, (keys_filter (isCell opts)).
  - rewrite bind_app. apply NoDup_app. split_and!.
    + apply paddingCells_keys_NoDup.
    + intros k Hk%paddingCells_keys_range Hin.
      apply keys_filter in Hin.
      specialize (Hold k (list_elem_of_further _ _ _ Hin)). lia.
    + by apply keys_filter_NoDup.
Qed.

(** The keys of the repaired children are the keys they had and keys
    that the generator handed out meanwhile, all distinct. *)
Lemma repairedNodes_keys columns (ns : list Node) :
  ∀ g,
    NoDup (ns ≫= Host.keys) →
    (∀ k, k ∈ ns ≫= Host.keys → (k < g)%nat) →
    let g' :=
      columnGen (filterBoolean (ValidateNode.diagnoseRow opts columns
                                <$> filter (isRow opts) ns)) g in
    NoDup (repairedNodes opts columns ns g ≫= Host.keys)
    ∧ ∀ k, k ∈ repairedNodes opts columns ns g ≫= Host.keys →
           k ∈ ns ≫= Host.keys ∨ (g ≤ k < g')%nat.
Proof.
  induction ns as [|x ns IH]; intros g Hnodup Hold; cbv zeta.
  { split; [constructor|]. by intros k ?%elem_of_nil. }
  rewrite bind_cons, NoDup_app in Hnodup.
  destruct Hnodup as (Hx & Hdisj & Hns).
  assert (∀ k, k ∈ Host.keys x → (k < g)%nat) as Holdx.
  { intros k Hk. apply Hold. rewrite bind_cons, elem_of_app. by left. }
  assert (∀ k, k ∈ ns ≫= Host.keys → (k < g)%nat) as Holdns.
  { intros k Hk. apply Hold. rewrite bind_cons, elem_of_app. by right. }
  cbn [repairedNodes].
  destruct (decide (isRow opts x
                    ∧ is_Some (ValidateNode.diagnoseRow opts columns x)))
    as [[Hrow [e He]]|Hskip].
  - rewrite filter_cons_True by done.
    rewrite (filterBoolean_cons_Some _ _ _ e He).
    apply diagnoseRow_Some in He as (_ & _ & Ha & _).
    cbn [columnGen]. rewrite Ha.
    set (g1 := g + 2 * rangeSize (columns - countCells opts x)).
    destruct (IH g1 Hns) as [IHnodup IHkeys].
    { intros k Hk. specialize (Holdns k Hk). lia. }
    cbv zeta in IHkeys.
    pose proof (columnGen_mono
                  (filterBoolean (ValidateNode.diagnoseRow opts columns
                                  <$> filter (isRow opts) ns)) g1) as Hmono.
    split.
    + rewrite bind_cons. apply NoDup_app. split_and!.
      * by apply repairedRow_keys_NoDup.
      * intros k [Hk|Hk]%repairedRow_keys_range Hin;
          apply IHkeys in Hin as [Hin|Hin].
        -- by apply (Hdisj k).
        -- specialize (Holdx k Hk). lia.
        -- specialize (Holdns k Hin). lia.
        -- lia.
      * done.
    + intros k. rewrite !bind_cons, !elem_of_app.
      intros [[Hk|Hk]%repairedRow_keys_range|Hk].
      * left. by left.
      * right. lia.
      * apply IHkeys in Hk as [Hk|Hk]; [left; by right|right; lia].
  - assert (filterBoolean (ValidateNode.diagnoseRow opts columns
                           <$> filter (isRow opts) (x :: ns))
            = filterBoolean (ValidateNode.diagnoseRow opts columns
                             <$> filter (isRow opts) ns)) as ->.
    { destruct (decide (isRow opts x)) as [Hrow|Hrow].
      - rewrite filter_cons_True by done.
        apply filterBoolean_cons_None.
        destruct (ValidateNode.diagnoseRow opts columns x) eqn:He; [|done].
        exfalso. apply Hskip. by split.
      - by rewrite filter_cons_False. }
    destruct (IH g Hns Holdns) as [IHnodup IHkeys]. cbv zeta in IHkeys.
    split.
    + rewrite bind_cons. apply NoDup_app. split_and!; [done| |done].
      intros k Hk Hin. apply IHkeys in Hin as [Hin|Hin].
      * by apply (Hdisj k).
      * specialize (Holdx k Hk). lia.
    + intros k. rewrite !bind_cons, !elem_of_app. intros [Hk|Hk].
      * left. by left.
      * apply IHkeys in Hk as [Hk|Hk]; [left; by right|by right].
Qed.

Lemma validateNode_columns_repairGen tk td (ns : list Node) g :
  let table := Block tk (typeTable opts) td ns in
  let columns := ValidateNode.columnsOf opts (filter (isRow opts) ns) in
  Host.wellKeyed table →
  Host.freshFor g table →
  repairGen (ValidateNode.toValidateNode
               (ValidateNode.rowsContainRequiredColumns opts)) table g
  = Some (Block tk (typeTable opts) td (repairedNodes opts columns ns g),
          columnGen (filterBoolean (ValidateNode.diagnoseRow opts columns
                                    <$> filter (isRow opts) ns)) g).
Proof.
  intros table columns Hwk Hfresh. subst table columns.
  destruct (wellKeyed_todo _ _ _ _ _ Hwk Hfresh) as [Hnodup Hkeys].
  pose proof (column_repair_nodes opts
                (ValidateNode.columnsOf opts (filter (isRow opts) ns))
                tk (typeTable opts) td ns [] g Hnodup Hkeys) as Happly.
  rewrite !app_nil_l in Happly.
  unfold repairGen, ValidateNode.toValidateNode, bind.
  cbn [match_ ValidateNode.rowsContainRequiredColumns validate normalize].
  unfold ValidateNode.isTable. rewrite bool_decide_eq_true_2 by done.
  cbn [negb]. rewrite validateNode_columns_validate. cbn [nodeNodes].
  destruct (filterBoolean _) as [|e d] eqn:Hd.
  - unfold ret. simpl in Happly. by injection Happly as <-.
  - unfold ret. rewrite validateNode_columns_normalize, app_nil_l.
    by rewrite Happly.
Qed.

Lemma makeSchema_columns_repairGen tk td (ns : list Node) g :
  let table := Block tk (typeTable opts) td ns in
  let columns := ValidateNode.columnsOf opts (filter (isRow opts) ns) in
  Host.wellKeyed table →
  Host.freshFor g table →
  repairGen (ValidateNode.toValidateNode
               (MakeSchema.rowsContainRequiredColumns opts)) table g
  = Some (if decide (Forall (λ r, countCells opts r = columns)
                            (filter (isRow opts) ns))
          then (table, g)
          else (Block tk (typeTable opts) td
                  (repairedNodes opts columns ns g),
                columnGen
                  (filterBoolean (ValidateNode.diagnoseRow opts columns
                                  <$> filter (isRow opts) ns)) g)).
Proof.
  intros table columns Hwk Hfresh. subst table columns.
  destruct (wellKeyed_todo _ _ _ _ _ Hwk Hfresh) as [Hnodup Hkeys].
  pose proof (column_repair_nodes opts
                (ValidateNode.columnsOf opts (filter (isRow opts) ns))
                tk (typeTable opts) td ns [] g Hnodup Hkeys) as Happly.
  rewrite !app_nil_l in Happly.
  unfold repairGen, ValidateNode.toValidateNode, bind.
  cbn [match_ MakeSchema.rowsContainRequiredColumns validate normalize].
  unfold MakeSchema.isTable. rewrite bool_decide_eq_true_2 by done.
  cbn [negb]. rewrite makeSchema_columns_validate. cbn [nodeNodes].
  destruct (decide (Forall _ _)); [done|].
  unfold ret. rewrite makeSchema_columns_normalize, app_nil_l.
  by rewrite Happly.
Qed.

(** The repaired table has pairwise distinct keys again, and none that
    the generator will hand out. *)
Lemma repaired_table_keys columns tk tty td (ns : list Node) g :
  Host.wellKeyed (Block tk tty td ns) →
  Host.freshFor g (Block tk tty td ns) →
  let g' :=
    columnGen (filterBoolean (ValidateNode.diagnoseRow opts columns
                              <$> filter (isRow opts) ns)) g in
  (g ≤ g')%nat
  ∧ Host.wellKeyed (Block tk tty td (repairedNodes opts columns ns g))
  ∧ Host.freshFor g' (Block tk tty td (repairedNodes opts columns ns g)).
Proof.
  intros Hwk Hfresh g'.
  destruct (wellKeyed_todo _ _ _ _ _ Hwk Hfresh) as [Hnodup Hkeys].
  destruct (repairedNodes_keys columns ns g Hnodup) as [Hnodup' Hkeys'].
  { intros k Hk. by apply Hkeys. }
  cbv zeta in Hkeys'. fold g' in Hkeys'.
  assert (g ≤ g')%nat as Hmono by apply columnGen_mono.
  assert (tk < g)%nat as Htk.
  { unfold Host.freshFor in Hfresh. rewrite keys_Block in Hfresh.
    by apply Forall_cons in Hfresh as [? _]. }
  split_and!; [done| |].
  - unfold Host.wellKeyed. rewrite keys_Block. apply NoDup_cons.
    split; [|done]. intros [Hin|Hin]%Hkeys'; [|lia].
    by destruct (Hkeys tk Hin) as (_ & ? & _).
  - unfold Host.freshFor. rewrite keys_Block. apply Forall_cons.
    split; [lia|]. apply Forall_forall. intros k [Hk|Hk]%Hkeys'; [|lia].
    destruct (Hkeys k Hk) as (_ & _ & ?). lia.
Qed.

(** X8. The column-count repair keeps the keys in order: the table it
    leaves has pairwise distinct keys again, none of which the generator,
    in the state the repair leaves it in, will hand out. For
    validateNode.js and for makeSchema.js. *)
Theorem column_repair_keeps_keys (rule : Rule) table g :
  rule ∈ [ ValidateNode.rowsContainRequiredColumns opts;
           MakeSchema.rowsContainRequiredColumns opts ] →
  nodeType table = Some (typeTable opts) →
  Host.wellKeyed table →
  Host.freshFor g table →
  ∃ table' g',
    repairGen (ValidateNode.toValidateNode rule) table g = Some (table', g')
    ∧ (g ≤ g')%nat
    ∧ Host.wellKeyed table'
    ∧ Host.freshFor g' table'.
Proof.
  intros Hrule Hty Hwk Hfresh.
  destruct table as [tk tty td ns|]; [|done]. injection Hty as ->.
  pose proof (repaired_table_keys
                (ValidateNode.columnsOf opts (filter (isRow opts) ns))
                tk (typeTable opts) td ns g Hwk Hfresh) as Hkeys.
  cbv zeta in Hkeys.
  rewrite !elem_of_cons, elem_of_nil in Hrule.
  destruct Hrule as [->|[->|[]]].
  - eexists _, _. split; [by apply validateNode_columns_repairGen|done].
  - destruct (decide (Forall (λ r, countCells opts r
                                   = ValidateNode.columnsOf opts
                                       (filter (isRow opts) ns))
                             (filter (isRow opts) ns))) as [Hall|Hsome].
    + exists (Block tk (typeTable opts) td ns), g.
      rewrite makeSchema_columns_repairGen by done.
      by rewrite decide_True.
    + eexists _, _. rewrite makeSchema_columns_repairGen by done.
      by rewrite decide_False.
Qed.

End KeysKept.

(** ** The rules of makeSchema.js, one after the other *)

Section InOrder.

Variable opts : Options.

(** The rows-only repair, run by the host, and the generator after it:
    three keys further when a row was made. *)
Lemma rows_repairGen (rule : Rule) tk td (ns : list Node) g :
  let table := Block tk (typeTable opts) td ns in
  rule ∈ [ ValidateNode.tablesContainOnlyRows opts;
           MakeSchema.tablesContainOnlyRows opts ] →
  Host.wellKeyed table →
  repairGen (ValidateNode.toValidateNode rule) table g
  = Some (if decide (filter (isRow opts) ns = [])
          then (Block tk (typeTable opts) td [emptyRowAt opts g],
                S (S (S g)))
          else (Block tk (typeTable opts) td (filter (isRow opts) ns), g)).
Proof.
  intros table Hrule Hwk. subst table.
  destruct (wellKeyed_children _ Hwk) as [Hnodup _]. cbn [nodeNodes] in Hnodup.
  pose proof (remove_children (isRow opts) tk (typeTable opts) td [] ns
                Hnodup) as Hremove.
  rewrite !app_nil_l in Hremove.
  assert (Host.applyChange
            (removalOps (filter (λ n, ¬ isRow opts n) ns))
            (Block tk (typeTable opts) td ns)
          = Some (Block tk (typeTable opts) td (filter (isRow opts) ns)))
    as Hremoved by (apply Hremove; by intros k _ ?%elem_of_nil).
  clear Hremove.
  destruct (rows_validate_value opts (Block tk (typeTable opts) td ns) g)
    as [Hv1 Hv2].
  cbv zeta in Hv1, Hv2. cbn [nodeNodes] in Hv1, Hv2.
  assert (∀ (validate_ : Node → Eff (option RowsDiagnosis)) normalize_,
    validate_ (Block tk (typeTable opts) td ns) g
    = (if decide (filter (isRow opts) ns = [])
       then Ok (Some (mkRowsDiagnosis (filter (λ n, ¬ isRow opts n) ns)
                        [emptyRowAt opts g]))
               (S (S (S g)))
       else if decide (filter (λ n, ¬ isRow opts n) ns = []) then Ok None g
            else Ok (Some (mkRowsDiagnosis
                             (filter (λ n, ¬ isRow opts n) ns) [])) g) →
    (∀ d g', normalize_ [] (Block tk (typeTable opts) td ns) d g'
             = Ok ([] ++ rowsOps (Block tk (typeTable opts) td ns) d) g') →
    repairGen (ValidateNode.toValidateNode
                 (mkRule RowsDiagnosis
                    (λ node,
                       bool_decide (nodeType node = Some (typeTable opts)))
                    validate_ normalize_))
      (Block tk (typeTable opts) td ns) g
    = Some (if decide (filter (isRow opts) ns = [])
            then (Block tk (typeTable opts) td [emptyRowAt opts g],
                  S (S (S g)))
            else (Block tk (typeTable opts) td (filter (isRow opts) ns), g)))
    as Hboth.
  { intros validate_ normalize_ Hv Hn.
    unfold repairGen, ValidateNode.toValidateNode, bind.
    cbn [match_ validate normalize].
    rewrite bool_decide_eq_true_2 by done. cbn [negb]. rewrite Hv.
    destruct (decide (filter (isRow opts) ns = [])) as [Hno|Hsome].
    - unfold ret. rewrite Hn, app_nil_l. unfold rowsOps.
      cbn [rows_invalids rows_add]. rewrite applyChange_app, Hremoved.
      simpl. rewrite decide_True by done. simpl. by rewrite Hno.
    - destruct (decide (filter (λ n, ¬ isRow opts n) ns = [])) as [Hnil|Hinv].
      + unfold ret. by rewrite filter_complement_nil.
      + unfold ret. rewrite Hn, app_nil_l. unfold rowsOps.
        cbn [rows_invalids rows_add]. rewrite fmap_nil, app_nil_r.
        by rewrite Hremoved. }
  rewrite !elem_of_cons, elem_of_nil in Hrule.
  destruct Hrule as [->|[->|[]]].
  - apply (Hboth (ValidateNode.tablesContainOnlyRows_validate opts)
             ValidateNode.tablesContainOnlyRows_normalize); [exact Hv1|].
    intros d g'. apply rows_normalize.
  - apply (Hboth (MakeSchema.tablesContainOnlyRows_validate opts)
             MakeSchema.tablesContainOnlyRows_normalize); [exact Hv2|].
    intros d g'. apply rows_normalize.
Qed.

(** The table that the rows-only repair leaves: its keys. *)
Lemma rows_repaired_keys tk td (ns : list Node) g :
  let table := Block tk (typeTable opts) td ns in
  Host.wellKeyed table →
  Host.freshFor g table →
  let result :=
    if decide (filter (isRow opts) ns = [])
    then (Block tk (typeTable opts) td [emptyRowAt opts g], S (S (S g)))
    else (Block tk (typeTable opts) td (filter (isRow opts) ns), g) in
  (g ≤ result.2)%nat
  ∧ Host.wellKeyed result.1
  ∧ Host.freshFor result.2 result.1.
Proof.
  intros table Hwk Hfresh result. subst table result.
  destruct (wellKeyed_todo _ _ _ _ _ Hwk Hfresh) as [Hnodup Hkeys].
  assert (tk < g)%nat as Htk.
  { unfold Host.freshFor in Hfresh. rewrite keys_Block in Hfresh.
    by apply Forall_cons in Hfresh as [? _]. }
  destruct (decide (filter (isRow opts) ns = [])) as [Hno|Hsome];
    cbn [fst snd].
  - split_and!; [lia| |].
    + unfold Host.wellKeyed. simpl.
      repeat constructor; rewrite ?elem_of_cons, ?elem_of_nil; lia.
    + unfold Host.freshFor. simpl. repeat constructor; lia.
  - split_and!; [done| |].
    + unfold Host.wellKeyed. rewrite keys_Block. apply NoDup_cons. split.
      * intros Hin%keys_filter. by destruct (Hkeys tk Hin) as (_ & ? & _).
      * by apply keys_filter_NoDup.
    + unfold Host.freshFor. rewrite keys_Block. apply Forall_cons.
      split; [done|]. apply Forall_forall. intros k Hk%keys_filter.
      by destruct (Hkeys k Hk) as (_ & _ & ?).
Qed.

(** X9. The rows-only repair keeps the keys in order, in both files: the
    table it leaves has pairwise distinct keys, none of which the
    generator, in the state the repair leaves it in, will hand out. *)
Theorem rows_repair_keeps_keys (rule : Rule) table g :
  rule ∈ [ ValidateNode.tablesContainOnlyRows opts;
           MakeSchema.tablesContainOnlyRows opts ] →
  nodeType table = Some (typeTable opts) →
  Host.wellKeyed table →
  Host.freshFor g table →
  ∃ table' g',
    repairGen (ValidateNode.toValidateNode rule) table g = Some (table', g')
    ∧ (g ≤ g')%nat
    ∧ Host.wellKeyed table'
    ∧ Host.freshFor g' table'.
Proof.
  intros Hrule Hty Hwk Hfresh.
  destruct table as [tk tty td ns|]; [|done]. injection Hty as ->.
  pose proof (rows_repaired_keys tk td ns g Hwk Hfresh) as Hkeys.
  cbv zeta in Hkeys.
  eexists _, _. split; [|exact Hkeys].
  rewrite (rows_repairGen rule tk td ns g Hrule Hwk).
  by destruct (decide (filter (isRow opts) ns = [])).
Qed.

(** A table with children that are all rows is fine for the rows-only
    rules. *)
Lemma rows_validate_all_rows table g :
  nodeNodes table ≠ [] →
  Forall (isRow opts) (nodeNodes table) →
  ValidateNode.tablesContainOnlyRows_validate opts table g = Ok None g
  ∧ MakeSchema.tablesContainOnlyRows_validate opts table g = Ok None g.
Proof.
  intros Hne Hrows.
  destruct (rows_validate_value opts table g) as [Hv1 Hv2].
  cbv zeta in Hv1, Hv2.
  rewrite (filter_all _ _ Hrows) in Hv1, Hv2.
  rewrite (filter_not_all _ _ Hrows) in Hv1, Hv2.
  rewrite decide_False in Hv1, Hv2 by done.
  by rewrite decide_True in Hv1, Hv2 by done.
Qed.

Lemma repairedNodes_rows columns (ns : list Node) g :
  Forall (isRow opts) ns →
  Forall (isRow opts) (repairedNodes opts columns ns g).
Proof.
  revert g. induction ns as [|x ns IH]; intros g Hrows; [constructor|].
  apply Forall_cons in Hrows as [Hx Hrows]. cbn [repairedNodes].
  destruct (decide _); constructor; try by apply IH.
  - by destruct x.
  - done.
Qed.

Lemma repairedNodes_length columns (ns : list Node) g :
  length (repairedNodes opts columns ns g) = length ns.
Proof.
  revert g. induction ns as [|x ns IH]; intros g; [done|].
  cbn [repairedNodes]. destruct (decide _); simpl; by rewrite IH.
Qed.

(** X10. The rules of makeSchema.js applied in the order of its list,
    the rows-only repair and then the column-count repair with the
    generator as the first left it: both succeed on a table with pairwise
    distinct keys that the generator does not hand out again, and on the
    table they leave, which has at least one child and rows only,
    [validate] of both rules returns [null]. *)
Theorem makeSchema_rules_in_order table g :
  nodeType table = Some (typeTable opts) →
  Host.wellKeyed table →
  Host.freshFor g table →
  ∃ table1 g1 table2 g2,
    repairGen (ValidateNode.toValidateNode
                 (MakeSchema.tablesContainOnlyRows opts)) table g
    = Some (table1, g1)
    ∧ repairGen (ValidateNode.toValidateNode
                   (MakeSchema.rowsContainRequiredColumns opts)) table1 g1
      = Some (table2, g2)
    ∧ nodeNodes table2 ≠ []
    ∧ Forall (isRow opts) (nodeNodes table2)
    ∧ ∀ rule g', rule ∈ MakeSchema.makeSchema opts →
                 validate rule table2 g' = Ok None g'.
Proof.
  intros Hty Hwk Hfresh.
  destruct table as [tk tty td ns|]; [|done]. injection Hty as ->.
  pose proof (rows_repaired_keys tk td ns g Hwk Hfresh) as Hkeys.
  cbv zeta in Hkeys.
  pose proof (rows_repairGen (MakeSchema.tablesContainOnlyRows opts)
                tk td ns g
                ltac:(apply list_elem_of_further, list_elem_of_here) Hwk)
    as Hfirst.
  cbv zeta in Hfirst.
  set (ns1 := if decide (filter (isRow opts) ns = [])
              then [emptyRowAt opts g] else filter (isRow opts) ns).
  set (g1 := if decide (filter (isRow opts) ns = [])
             then S (S (S g)) else g).
  assert ((if decide (filter (isRow opts) ns = [])
           then (Block tk (typeTable opts) td [emptyRowAt opts g],
                 S (S (S g)))
           else (Block tk (typeTable opts) td (filter (isRow opts) ns), g))
          = (Block tk (typeTable opts) td ns1, g1)) as Hresult
    by (subst ns1 g1; by destruct (decide _)).
  rewrite Hresult in *. cbn [fst snd] in Hkeys.
  destruct Hkeys as (_ & Hwk1 & Hfresh1).
  assert (ns1 ≠ []) as Hne1 by (subst ns1; by destruct (decide _)).
  assert (Forall (isRow opts) ns1) as Hrows1.
  { subst ns1. destruct (decide _); [by repeat constructor|].
    apply Forall_forall. intros r Hr.
    by apply list_elem_of_filter in Hr as [? _]. }
  set (columns := ValidateNode.columnsOf opts (filter (isRow opts) ns1)).
  assert (∀ r, r ∈ ns1 → isRow opts r → (countCells opts r ≤ columns)%Z)
    as Hle.
  { intros r Hr Hrow. apply columnsOf_ge_cells. by apply list_elem_of_filter. }
  pose proof (repairedNodes_settled opts columns ns1 g1
                (columnsOf_ge_1 opts _) Hle) as Hsettled.
  cbv zeta in Hsettled.
  pose proof (makeSchema_columns_repairGen opts tk td ns1 g1 Hwk1 Hfresh1)
    as Hsecond.
  cbv zeta in Hsecond. fold columns in Hsecond.
  assert (∃ ns2 g2,
    repairGen (ValidateNode.toValidateNode
                 (MakeSchema.rowsContainRequiredColumns opts))
      (Block tk (typeTable opts) td ns1) g1
    = Some (Block tk (typeTable opts) td ns2, g2)
    ∧ ns2 ≠ []
    ∧ Forall (isRow opts) ns2
    ∧ Forall (λ r, countCells opts r
                   = ValidateNode.columnsOf opts (filter (isRow opts) ns2))
             (filter (isRow opts) ns2))
    as (ns2 & g2 & Hsecond' & Hne2 & Hrows2 & Hc).
  { rewrite Hsecond. destruct (decide (Forall _ _)) as [Hall|_].
    - by exists ns1, g1.
    - eexists _, _. split_and!; [done| | |].
      + intros Hnil. apply (f_equal length) in Hnil.
        rewrite repairedNodes_length in Hnil. by destruct ns1.
      + by apply repairedNodes_rows.
      + eapply Forall_impl; [exact Hsettled|]. by intros r [_ ?]. }
  exists (Block tk (typeTable opts) td ns1), g1,
         (Block tk (typeTable opts) td ns2), g2.
  split_and!; [by rewrite Hfirst|done..|].
  intros rule g' Hrule. unfold MakeSchema.makeSchema in Hrule.
  rewrite !elem_of_cons, elem_of_nil in Hrule.
  destruct Hrule as [->|[->|[]]].
  - by apply rows_validate_all_rows.
  - cbn [validate MakeSchema.rowsContainRequiredColumns].
    rewrite makeSchema_columns_validate. cbn [nodeNodes]. cbv zeta.
    by rewrite decide_True.
Qed.

End InOrder.

(** ** The two column-count rules side by side *)

Section SideBySide.

Variable opts : Options.

Lemma entries_nonempty columns (rows : list Node) :
  ¬ Forall (λ r, countCells opts r = columns) rows →
  filterBoolean (ValidateNode.diagnoseRow opts columns <$> rows) ≠ [].
Proof.
  intros Hnot Hnil. apply Hnot, Forall_forall. intros r Hr.
  destruct (ValidateNode.diagnoseRow opts columns r) as [e|] eqn:He.
  - assert (e ∈ filterBoolean (ValidateNode.diagnoseRow opts columns
                               <$> rows)) as Hin
      by (apply elem_of_filterBoolean; eauto).
    rewrite Hnil in Hin. by apply elem_of_nil in Hin.
  - by apply diagnoseRow_None in He as [_ ?].
Qed.

Lemma entries_empty columns (rows : list Node) :
  filterBoolean (ValidateNode.diagnoseRow opts columns <$> rows) = []
  ↔ Forall (λ r, filter (λ n, ¬ isCell opts n) (nodeNodes r) = []
                 ∧ countCells opts r = columns) rows.
Proof.
  induction rows as [|r rows IH]; [by split|].
  destruct (ValidateNode.diagnoseRow opts columns r) as [e|] eqn:He.
  - rewrite (filterBoolean_cons_Some _ _ _ e He). split; [done|].
    intros [Hr _]%Forall_cons. apply diagnoseRow_None in Hr. congruence.
  - rewrite (filterBoolean_cons_None _ _ _ He), Forall_cons, IH.
    apply diagnoseRow_None in He. split; [by intros ?|by intros [_ ?]].
Qed.

(** X11. The column-count diagnoses of the two files compared, on any
    table: a diagnosis of makeSchema.js is the diagnosis of
    validateNode.js; where validateNode.js finds nothing, makeSchema.js
    finds nothing; and they differ, makeSchema.js returning [null] and
    validateNode.js a diagnosis, exactly on the tables whose rows all have
    [columns] cells while one of them has a child that is no cell. *)
Theorem column_validates_compared table g :
  let rows := filter (isRow opts) (nodeNodes table) in
  let columns := ValidateNode.columnsOf opts rows in
  (∀ d, MakeSchema.rowsContainRequiredColumns_validate opts table g
        = Ok (Some d) g →
        ValidateNode.rowsContainRequiredColumns_validate opts table g
        = Ok (Some d) g)
  ∧ (ValidateNode.rowsContainRequiredColumns_validate opts table g
     = Ok None g →
     MakeSchema.rowsContainRequiredColumns_validate opts table g = Ok None g)
  ∧ (MakeSchema.rowsContainRequiredColumns_validate opts table g = Ok None g
     ∧ ValidateNode.rowsContainRequiredColumns_validate opts table g
       ≠ Ok None g
     ↔ Forall (λ r, countCells opts r = columns) rows
       ∧ Exists (λ r, filter (λ n, ¬ isCell opts n) (nodeNodes r) ≠ [])
                rows).
Proof.
  intros rows columns.
  rewrite validateNode_columns_validate, makeSchema_columns_validate.
  cbv zeta. fold rows. fold columns.
  pose proof (entries_nonempty columns rows) as Hnonempty.
  pose proof (entries_empty columns rows) as Hempty.
  destruct (decide (Forall (λ r, countCells opts r = columns) rows))
    as [Hall|Hsome].
  - split_and!; [done|done|].
    destruct (filterBoolean _) as [|e d] eqn:Hd.
    + split; [by intros [_ ?]|]. intros [_ Hex]. exfalso.
      pose proof (proj1 Hempty eq_refl) as Hclean.
      apply Exists_exists in Hex as (r & Hr & Hinv).
      rewrite Forall_forall in Hclean. by destruct (Hclean r Hr).
    + split; [|done]. intros _. split; [done|].
      apply not_Forall_Exists; [apply _|]. intros Hclean.
      assert (Forall (λ r, filter (λ n, ¬ isCell opts n) (nodeNodes r) = []
                           ∧ countCells opts r = columns) rows) as Hboth.
      { rewrite Forall_forall in *. intros r Hr. split; [|by apply Hall].
        specialize (Hclean r Hr). simpl in Hclean.
        by destruct (decide (filter (λ n, ¬ isCell opts n) (nodeNodes r)
                             = [])). }
      by apply Hempty in Hboth.
  - specialize (Hnonempty Hsome).
    destruct (filterBoolean _) as [|e d]; [done|].
    split_and!; [done|done|]. split; [by intros [? _]|by intros [? _]].
Qed.

Lemma columnOps_rowOperations table (d : list RowDiagnosis) g0 g :
  (g0 ≤ g)%nat →
  Forall (λ entry, row entry ∈ nodeNodes table
                   ∧ isRow opts (row entry)
                   ∧ invalids entry
                     = filter (λ n, ¬ isCell opts n)
                              (nodeNodes (row entry))) d →
  Forall (rowOperation opts table g0) (columnOps opts d g).
Proof.
  intros Hg Hd. revert g Hg. induction Hd as [|e d (Hrow & His & Hinv) _ IH];
    intros g Hg; cbn [columnOps]; [constructor|].
  rewrite !Forall_app. split_and!.
  - apply Forall_forall. intros op (c & -> & Hc)%list_elem_of_fmap.
    split; [done|]. exists (row e), c. rewrite Hinv in Hc.
    apply list_elem_of_filter in Hc as [Hcell Hc]. by split_and!.
  - apply Forall_forall. intros op (g' & -> & Hg')%elem_of_paddingOps.
    split_and!; [done|done| |].
    + by exists (row e).
    + exists g'. split; [done|lia].
  - apply IH. lia.
Qed.

Lemma diagnosis_row_entries table :
  let rows := filter (isRow opts) (nodeNodes table) in
  Forall (λ entry, row entry ∈ nodeNodes table
                   ∧ isRow opts (row entry)
                   ∧ invalids entry
                     = filter (λ n, ¬ isCell opts n)
                              (nodeNodes (row entry)))
         (filterBoolean
            (ValidateNode.diagnoseRow opts (ValidateNode.columnsOf opts rows)
             <$> rows)).
Proof.
  intros rows. apply Forall_forall. intros e He.
  apply elem_of_filterBoolean in He as (r & Hr & He).
  apply diagnoseRow_Some in He as (-> & -> & _).
  by apply list_elem_of_filter in Hr as [? ?].
Qed.

(** X12. What the column-count [normalize] asks of the host, for the
    diagnosis that [validate] returned, in both files: nothing but
    removals of children that are no cells from rows of the table, and
    insertions of empty cells at the head of rows of the table, all with
    normalization switched off. *)
Theorem column_repair_operations table (d : list RowDiagnosis) change g g' :
  ValidateNode.rowsContainRequiredColumns_validate opts table g
    = Ok (Some d) g'
  ∨ MakeSchema.rowsContainRequiredColumns_validate opts table g
    = Ok (Some d) g' →
  ∃ ops g'',
    ValidateNode.rowsContainRequiredColumns_normalize opts change table d g'
    = Ok (change ++ ops) g''
    ∧ MakeSchema.rowsContainRequiredColumns_normalize opts change table d g'
      = Ok (change ++ ops) g''
    ∧ Forall (rowOperation opts table g') ops.
Proof.
  intros Hd.
  assert (g' = g
          ∧ d = filterBoolean
                  (ValidateNode.diagnoseRow opts
                     (ValidateNode.columnsOf opts
                        (filter (isRow opts) (nodeNodes table)))
                   <$> filter (isRow opts) (nodeNodes table)))
    as [-> ->].
  { destruct Hd as [Hd|Hd].
    - rewrite validateNode_columns_validate in Hd. cbv zeta in Hd.
      destruct (filterBoolean _); by simplify_eq.
    - rewrite makeSchema_columns_validate in Hd. cbv zeta in Hd.
      destruct (decide _); by simplify_eq. }
  eexists _, _. split_and!.
  - apply validateNode_columns_normalize.
  - apply makeSchema_columns_normalize.
  - apply columnOps_rowOperations; [done|]. apply diagnosis_row_entries.
Qed.

End SideBySide.

(** ** The further properties on the sample tables *)

Lemma validateNode_ignores_other_nodes_witness :
  (∀ rule, rule ∈ allRules Samples.opts Samples.createAlign →
           ValidateNode.toValidateNode rule (Samples.paragraph 1) 100
           = Ok None 100)
  ∧ ValidateNode.validateNode Samples.opts Samples.createAlign
      (Samples.paragraph 1) 100 = Ok None 100.
Proof.
  apply (validateNode_ignores_other_nodes Samples.opts Samples.createAlign
           (Samples.paragraph 1) 100).
  discriminate.
Defined.

Lemma column_repair_settles_witness :
  ∃ table',
    repair (ValidateNode.toValidateNode
              (ValidateNode.rowsContainRequiredColumns Samples.opts))
      Samples.paddedTable 100 = Some table'
    ∧ validate (ValidateNode.rowsContainRequiredColumns Samples.opts)
        table' 200 = Ok None 200.
Proof.
  apply (column_repair_settles Samples.opts
           (ValidateNode.rowsContainRequiredColumns Samples.opts)
           Samples.paddedTable 100 200).
  - apply list_elem_of_here.
  - reflexivity.
  - apply wellKeyed_decide. vm_compute. reflexivity.
  - apply freshFor_decide. vm_compute. reflexivity.
Defined.

Lemma column_repair_keeps_conforming_witness :
  ∃ table',
    repair (ValidateNode.toValidateNode
              (ValidateNode.rowsContainRequiredColumns Samples.opts))
      Samples.paddedTable 100 = Some table'
    ∧ nodeKey table' = nodeKey Samples.paddedTable
    ∧ nodeType table' = nodeType Samples.paddedTable
    ∧ nodeData table' = nodeData Samples.paddedTable
    ∧ length (nodeNodes table') = length (nodeNodes Samples.paddedTable)
    ∧ ∀ i n,
        nodeNodes Samples.paddedTable !! i = Some n →
        (isRow Samples.opts n →
         filter (λ c, ¬ isCell Samples.opts c) (nodeNodes n) = []
         ∧ countCells Samples.opts n
           = ValidateNode.columnsOf Samples.opts
               (filter (isRow Samples.opts)
                       (nodeNodes Samples.paddedTable))) →
        nodeNodes table' !! i = Some n.
Proof.
  apply (column_repair_keeps_conforming Samples.opts
           (ValidateNode.rowsContainRequiredColumns Samples.opts)
           Samples.paddedTable 100).
  - apply list_elem_of_here.
  - reflexivity.
  - apply wellKeyed_decide. vm_compute. reflexivity.
  - apply freshFor_decide. vm_compute. reflexivity.
Defined.

Lemma rows_repair_settles_witness :
  ∃ table',
    repair (ValidateNode.toValidateNode
              (MakeSchema.tablesContainOnlyRows Samples.opts))
      Samples.mixedTable 100 = Some table'
    ∧ nodeNodes table' ≠ []
    ∧ Forall (isRow Samples.opts) (nodeNodes table')
    ∧ validate (MakeSchema.tablesContainOnlyRows Samples.opts) table' 200
      = Ok None 200.
Proof.
  apply (rows_repair_settles Samples.opts
           (MakeSchema.tablesContainOnlyRows Samples.opts)
           Samples.mixedTable 100 200).
  - apply list_elem_of_further, list_elem_of_here.
  - reflexivity.
  - apply wellKeyed_decide. vm_compute. reflexivity.
Defined.


Lemma validateNode_converges_witness :
  ∃ table1 table2,
    repair (ValidateNode.validateNode Samples.opts Samples.createAlign)
      Samples.raggedTable 100 = Some table1
    ∧ (∀ g1, repair (ValidateNode.validateNode Samples.opts
                       Samples.createAlign) table1 g1 = Some table2)
    ∧ (∀ g2, ValidateNode.validateNode Samples.opts Samples.createAlign
               table2 g2 = Ok None g2).
Proof.
  apply (validateNode_converges Samples.opts Samples.createAlign
           Samples.raggedTable 100).
  - reflexivity.
  - discriminate.
  - apply wellKeyed_decide. vm_compute. reflexivity.
  - apply freshFor_decide. vm_compute. reflexivity.
  - vm_compute. reflexivity.
Defined.

Lemma column_repair_keeps_keys_witness :
  ∃ table' g',
    repairGen (ValidateNode.toValidateNode
                 (MakeSchema.rowsContainRequiredColumns Samples.opts))
      Samples.paddedTable 100 = Some (table', g')
    ∧ (100 ≤ g')%nat
    ∧ Host.wellKeyed table'
    ∧ Host.freshFor g' table'.
Proof.
  apply (column_repair_keeps_keys Samples.opts
           (MakeSchema.rowsContainRequiredColumns Samples.opts)
           Samples.paddedTable 100).
  - apply list_elem_of_further, list_elem_of_here.
  - reflexivity.
  - apply wellKeyed_decide. vm_compute. reflexivity.
  - apply freshFor_decide. vm_compute. reflexivity.
Defined.

Lemma rows_repair_keeps_keys_witness :
  ∃ table' g',
    repairGen (ValidateNode.toValidateNode
                 (MakeSchema.tablesContainOnlyRows Samples.opts))
      Samples.rowlessTable 100 = Some (table', g')
    ∧ (100 ≤ g')%nat
    ∧ Host.wellKeyed table'
    ∧ Host.freshFor g' table'.
Proof.
  apply (rows_repair_keeps_keys Samples.opts
           (MakeSchema.tablesContainOnlyRows Samples.opts)
           Samples.rowlessTable 100).
  - apply list_elem_of_further, list_elem_of_here.
  - reflexivity.
  - apply wellKeyed_decide. vm_compute. reflexivity.
  - apply freshFor_decide. vm_compute. reflexivity.
Defined.

Lemma makeSchema_rules_in_order_witness :
  ∃ table1 g1 table2 g2,
    repairGen (ValidateNode.toValidateNode
                 (MakeSchema.tablesContainOnlyRows Samples.opts))
      Samples.rowlessTable 100 = Some (table1, g1)
    ∧ repairGen (ValidateNode.toValidateNode
                   (MakeSchema.rowsContainRequiredColumns Samples.opts))
        table1 g1 = Some (table2, g2)
    ∧ nodeNodes table2 ≠ []
    ∧ Forall (isRow Samples.opts) (nodeNodes table2)
    ∧ ∀ rule g', rule ∈ MakeSchema.makeSchema Samples.opts →
                 validate rule table2 g' = Ok None g'.
Proof.
  apply (makeSchema_rules_in_order Samples.opts Samples.rowlessTable 100).
  - reflexivity.
  - apply wellKeyed_decide. vm_compute. reflexivity.
  - apply freshFor_decide. vm_compute. reflexivity.
Defined.

Lemma column_repair_operations_witness :
  ∃ ops g'',
    ValidateNode.rowsContainRequiredColumns_normalize Samples.opts []
      Samples.raggedTable Samples.raggedDiagnosis 100
    = Ok ([] ++ ops) g''
    ∧ MakeSchema.rowsContainRequiredColumns_normalize Samples.opts []
        Samples.raggedTable Samples.raggedDiagnosis 100
      = Ok ([] ++ ops) g''
    ∧ Forall (rowOperation Samples.opts Samples.raggedTable 100) ops.
Proof.
  apply (column_repair_operations Samples.opts Samples.raggedTable
           Samples.raggedDiagnosis [] 100 100).
  right. vm_compute. reflexivity.
Defined.
